(** * The revocation log of channeldb: record codec and dual-bucket access

    A shallow embedding of the revocation log of package [channeldb]: the
    sparse payment hash codec, the HTLC entry and revocation log records, their framed
    serialisation, and the read, write and delete paths over the current and
    the deprecated bucket.

    Conventions.  A byte is a [Z] in [0, 256); a Go unsigned integer of width
    [w] is a [Z] in [0, 2^w).  An [io.Reader] over a byte slice is the list of
    the bytes not yet consumed; a read returns the value read together with
    the reader that remains.  An [io.Writer] over a [bytes.Buffer] is the list
    of bytes written, and writing cannot fail.  A pointer to a field of a
    struct is a pair of a load and a store function on the struct. *)

From Stdlib Require Import ZArith Lia List Bool.
From stdpp Require Import base list gmap strings.

Local Open Scope Z_scope.

(** ** Errors and fallible results *)

Inductive error : Type :=
| EOF                   (* io.EOF *)
| ErrUnexpectedEOF      (* io.ErrUnexpectedEOF: the input ends inside a record *)
| ErrInvalidFieldLength (* a fixed-size field with a wrong declared length *)
| ErrLogEntryNotFound
| ErrOutputIndexTooBig
| ErrNoPastDeltas
| ErrLegacy (code : Z)  (* an error of the legacy commitment decoder *)
| ErrFuel.              (* the loop bound of the model was reached *)

Inductive result (A : Type) : Type :=
| Ok (a : A)
| Err (e : error).

Arguments Ok {A} a.
Arguments Err {A} e.

#[global] Instance result_bind : MBind result :=
  fun A B f x =>
    match x with
    | Ok a => f a
    | Err e => Err e
    end.

(** ** Bytes, readers and fixed-width integers *)

Abbreviation Reader := (list Z).

Definition is_byte (b : Z) : bool := (0 <=? b) && (b <? 256).

Definition is_bytes (bs : list Z) : bool := forallb is_byte bs.

(** [bytes.Equal]. *)
Fixpoint bytes_Equal (a b : list Z) : bool :=
  match a, b with
  | [], [] => true
  | x :: a', y :: b' => (x =? y) && bytes_Equal a' b'
  | _, _ => false
  end.

(** [io.ReadFull] into a buffer of [n] bytes: [EOF] when nothing at all could
    be read, [ErrUnexpectedEOF] when the input ends before the buffer is
    full. *)
Definition readFull (n : nat) (r : Reader) : result (list Z * Reader) :=
  match n, r with
  | O, _ => Ok ([], r)
  | _, [] => Err EOF
  | _, _ => if (length r <? n)%nat then Err ErrUnexpectedEOF
            else Ok (take n r, drop n r)
  end.

(** [binary.BigEndian.PutUintN] on [n] bytes, and the value of a big-endian
    byte string. *)
Fixpoint be_bytes (n : nat) (v : Z) : list Z :=
  match n with
  | O => []
  | S k => (v / 256 ^ Z.of_nat k) mod 256 :: be_bytes k v
  end.

Fixpoint be_value (bs : list Z) (acc : Z) : Z :=
  match bs with
  | [] => acc
  | b :: t => be_value t (acc * 256 + b)
  end.

(** Modelled from the spec: [makeLogKey] is not among the sources; the storage
    key is the 8-byte big-endian encoding of the commitment height (4.6). *)
Definition makeLogKey (updateNum : Z) : list Z := be_bytes 8 updateNum.

(** ** The tlv package

    The tlv package of the repository is not among the sources.  Its
    functions are modelled from what the spec says of the format: a field is
    its type, its length and its value (6, on-disk layout); fields of a
    record are decoded in whatever order they come and fields of unknown
    types are skipped by their declared length (4.3); an input that ends
    inside a record is the truncated-record error, which is
    [io.ErrUnexpectedEOF], the name [readTlvStream] gives to an input that
    ends early. *)

(** Modelled from the spec: [tlv.WriteVarInt] is not among the sources.  The
    compact variable-length integer takes 1, 3, 5 or 9 bytes (3, amount),
    with the thresholds 252, 65535 and 4294967295 of the size table in the
    comment of [HTLCEntry]. *)
Definition WriteVarInt (v : Z) : list Z :=
  if v <? 253 then [v]
  else if v <=? 65535 then 253 :: be_bytes 2 v
  else if v <=? 4294967295 then 254 :: be_bytes 4 v
  else 255 :: be_bytes 8 v.

(** Modelled from the spec: [tlv.ReadVarInt] is not among the sources.  [EOF]
    when no byte at all is left, [io.ErrUnexpectedEOF] when the input ends
    inside the integer. *)
Definition ReadVarInt (r : Reader) : result (Z * Reader) :=
  match r with
  | [] => Err EOF
  | d :: r1 =>
      if d <? 253 then Ok (d, r1)
      else
        let n := if d =? 253 then 2%nat else if d =? 254 then 4%nat else 8%nat in
        match readFull n r1 with
        | Err EOF => Err ErrUnexpectedEOF
        | Err e => Err e
        | Ok (bs, r2) => Ok (be_value bs 0, r2)
        end
  end.

(** Modelled from the spec: the encoders of the tlv package for the primitive
    values ([tlv.EUint16], [tlv.EUint32], [tlv.EBool], [tlv.EBytes32]) are not
    among the sources; integers are big-endian, a hash is its 32 bytes
    verbatim. *)
Definition EUint16 (v : Z) : list Z := be_bytes 2 v.
(** Modelled from the spec: see [EUint16]. *)
Definition EUint32 (v : Z) : list Z := be_bytes 4 v.
(** Modelled from the spec: see [EUint16]. *)
Definition EBool (b : bool) : list Z := [if b then 1 else 0].
(** Modelled from the spec: see [EUint16]. *)
Definition EBytes32 (h : list Z) : list Z := h.

(** Modelled from the spec: the decoders of the tlv package for fixed-size
    values are not among the sources.  A decoder receives the reader and the
    declared length [l] of the field; a declared length other than the size
    of the value is the invalid-field-length error (7), and the value is read
    in full or the record is truncated. *)
Definition DFixed (n : nat) (r : Reader) (l : Z) : result (list Z * Reader) :=
  if l =? Z.of_nat n then readFull n r else Err ErrInvalidFieldLength.

(** Modelled from the spec: [tlv.DUint16], see [DFixed]. *)
Definition DUint16 (r : Reader) (l : Z) : result (Z * Reader) :=
  '(bs, r') ← DFixed 2 r l; Ok (be_value bs 0, r').

(** Modelled from the spec: [tlv.DUint32], see [DFixed]. *)
Definition DUint32 (r : Reader) (l : Z) : result (Z * Reader) :=
  '(bs, r') ← DFixed 4 r l; Ok (be_value bs 0, r').

(** Modelled from the spec: [tlv.DBool], see [DFixed]. *)
Definition DBool (r : Reader) (l : Z) : result (bool * Reader) :=
  '(bs, r') ← DFixed 1 r l; Ok (negb (hd 0 bs =? 0), r').

(** Modelled from the spec: [tlv.DBytes32], see [DFixed]. *)
Definition DBytes32 (r : Reader) (l : Z) : result (list Z * Reader) :=
  DFixed 32 r l.

(** Modelled from the spec: [tlv.DBigSize] is not among the sources; the
    value is a compact variable-length integer. *)
Definition DBigSize (r : Reader) (l : Z) : result (Z * Reader) := ReadVarInt r.

(** A pointer to a field of type [A] inside a value of type [S]. *)
Record Ptr (S A : Type) : Type := MakePtr {
  load : S -> A;
  store : A -> S -> S
}.

Arguments MakePtr {S A} load store.
Arguments load {S A} p s.
Arguments store {S A} p a s.

(** Modelled from the spec: [tlv.Record] is not among the sources.  A record
    is a type, the size of the encoded value, and the encoder and decoder
    bound to the value the record points to (a part of [S]). *)
Record TlvRecord (S : Type) : Type := MakeRecord {
  typ : Z;
  sizeFunc : S -> Z;
  encoder : S -> list Z;
  decoder : Reader -> Z -> S -> result (S * Reader)
}.

Arguments MakeRecord {S} typ sizeFunc encoder decoder.
Arguments typ {S} t.
Arguments sizeFunc {S} t s.
Arguments encoder {S} t s.
Arguments decoder {S} t r l s.

(** Modelled from the spec: [tlv.TypeMap] is not among the sources.  For each
    type met while decoding: [None] (Go's nil, which the source tests) when a
    record of the stream decoded it, the raw bytes otherwise. *)
Abbreviation TypeMap := (gmap Z (option (list Z))).

Section TlvStream.
Context {S : Type}.

(** Modelled from the spec: [tlv.MakeDynamicRecord] is not among the sources;
    the record of a value whose encoded size depends on the value. *)
Definition MakeDynamicRecord {A : Type} (t : Z) (p : Ptr S A)
    (size : A -> Z) (enc : A -> list Z)
    (dec : Reader -> A -> Z -> result (A * Reader)) : TlvRecord S :=
  MakeRecord t
    (fun s => size (load p s))
    (fun s => enc (load p s))
    (fun r l s => '(a, r') ← dec r (load p s) l; Ok (store p a s, r')).

(** Modelled from the spec: the record of a value of a fixed encoded size. *)
Definition MakeStaticRecord {A : Type} (t : Z) (p : Ptr S A)
    (size : Z) (enc : A -> list Z)
    (dec : Reader -> Z -> result (A * Reader)) : TlvRecord S :=
  MakeDynamicRecord t p (fun _ => size) enc (fun r _ l => dec r l).

(** Modelled from the spec: [tlv.MakePrimitiveRecord] is not among the
    sources; one definition per Go type of the value pointed to. *)
Definition MakeUint16Record (t : Z) (p : Ptr S Z) : TlvRecord S :=
  MakeStaticRecord t p 2 EUint16 DUint16.
(** Modelled from the spec: see [MakeUint16Record]. *)
Definition MakeUint32Record (t : Z) (p : Ptr S Z) : TlvRecord S :=
  MakeStaticRecord t p 4 EUint32 DUint32.
(** Modelled from the spec: see [MakeUint16Record]. *)
Definition MakeBoolRecord (t : Z) (p : Ptr S bool) : TlvRecord S :=
  MakeStaticRecord t p 1 EBool DBool.
(** Modelled from the spec: see [MakeUint16Record]. *)
Definition MakeBytes32Record (t : Z) (p : Ptr S (list Z)) : TlvRecord S :=
  MakeStaticRecord t p 32 EBytes32 DBytes32.

(** Modelled from the spec: [tlv.MakeBigSizeRecord] is not among the sources;
    the value is written as a compact variable-length integer. *)
Definition MakeBigSizeRecord (t : Z) (p : Ptr S Z) : TlvRecord S :=
  MakeDynamicRecord t p
    (fun v => Z.of_nat (length (WriteVarInt v))) WriteVarInt
    (fun r _ l => DBigSize r l).

(** Modelled from the spec: [tlv.Stream] is not among the sources; a stream
    holds the records it was made from ([tlv.NewStream]), in their order. *)
Definition Stream : Type := list (TlvRecord S).

(** Modelled from the spec: a field is its type, its length as a varint and
    its value (6). *)
Definition encodeRecord (s : S) (rec : TlvRecord S) : list Z :=
  WriteVarInt (typ rec) ++ WriteVarInt (sizeFunc rec s) ++ encoder rec s.

(** Modelled from the spec: [Stream.Encode] is not among the sources; the
    records are written in the order of the stream. *)
Definition Encode (st : Stream) (s : S) : list Z :=
  concat (map (encodeRecord s) st).

(** Modelled from the spec: the record of the stream that has the type [t],
    if any. *)
Definition getRecord (st : Stream) (t : Z) : option (TlvRecord S) :=
  find (fun rec => typ rec =? t) st.

(** Modelled from the spec: the loop of [Stream.DecodeWithParsedTypes], which
    is not among the sources.  Fields are read until the reader is at its
    end; a field of a known type is decoded by its record, in whatever order
    the fields come, and a field of an unknown type is skipped by its
    declared length (4.3).  [fuel] bounds the number of fields. *)
Fixpoint decodeLoop (fuel : nat) (st : Stream) (r : Reader) (s : S)
    (parsedTypes : TypeMap) : result (S * TypeMap * Reader) :=
  match fuel with
  | O => Err ErrFuel
  | Datatypes.S fuel' =>
      match ReadVarInt r with
      | Err EOF => Ok (s, parsedTypes, r)
      | Err e => Err e
      | Ok (t, r1) =>
          match ReadVarInt r1 with
          | Err EOF => Err ErrUnexpectedEOF
          | Err e => Err e
          | Ok (len, r2) =>
              match getRecord st t with
              | Some rec =>
                  match decoder rec r2 len s with
                  | Err EOF => Err ErrUnexpectedEOF
                  | Err e => Err e
                  | Ok (s', r3) =>
                      decodeLoop fuel' st r3 s' (<[t := None]> parsedTypes)
                  end
              | None =>
                  if (length r2 <? Z.to_nat len)%nat then Err ErrUnexpectedEOF
                  else decodeLoop fuel' st (drop (Z.to_nat len) r2) s
                         (<[t := Some (take (Z.to_nat len) r2)]> parsedTypes)
              end
          end
      end
  end.

(** Modelled from the spec: [Stream.DecodeWithParsedTypes]; every field
    takes at least two bytes, so the length of the input bounds the loop. *)
Definition DecodeWithParsedTypes (st : Stream) (r : Reader) (s : S)
    : result (S * TypeMap * Reader) :=
  decodeLoop (Datatypes.S (length r)) st r s ∅.
End TlvStream.

Arguments Stream S : clear implicits.

(** ** Framing: [writeTlvStream] and [readTlvStream] *)

(** The conversion [int64(v)] of a [uint64]. *)
Definition int64 (v : Z) : Z := (v + 2 ^ 63) mod 2 ^ 64 - 2 ^ 63.

(** [io.LimitReader]: at most [n] bytes of [r]; nothing when [n <= 0]. *)
Definition LimitReader (r : Reader) (n : Z) : Reader :=
  if n <=? 0 then [] else take (Z.to_nat n) r.

(** The encoded stream, preceded by its length as a varint. *)
Definition writeTlvStream {S : Type} (st : Stream S) (s : S) : list Z :=
  let b := Encode st s in
  WriteVarInt (Z.of_nat (length b)) ++ b.

(** The length is read, and the stream is decoded through a reader limited to
    that many bytes.  The reader that remains is [r1] without the bytes the
    decoder took from the limited reader. *)
Definition readTlvStream {S : Type} (r : Reader) (st : Stream S) (s : S)
    : result (S * TypeMap * Reader) :=
  match ReadVarInt r with
  | Err EOF => Err ErrUnexpectedEOF
  | Err e => Err e
  | Ok (bodyLen, r1) =>
      let lr := LimitReader r1 (int64 bodyLen) in
      '(s', parsedTypes, lr') ← DecodeWithParsedTypes st lr s;
      Ok (s', parsedTypes, drop (length lr - length lr')%nat r1)
  end.

(** ** The sparse payment hash *)

Definition ZeroHash : list Z := repeat 0 32.

Definition hashLen (s : list Z) : Z :=
  if bytes_Equal s ZeroHash then 0 else 32.

Definition sparseHashEncoder (v : list Z) : list Z :=
  if bytes_Equal v ZeroHash then [] else EBytes32 v.

(** The value [v] pointed to is left as it is when the length is zero;
    otherwise 32 bytes are read into it, [DBytes32] being given the constant
    32 and not [l]. *)
Definition sparseHashDecoder (r : Reader) (v : list Z) (l : Z)
    : result (list Z * Reader) :=
  if l =? 0 then Ok (v, r)
  else '(vArray, r') ← DBytes32 r 32; Ok (vArray, r').

Definition SparsePayHash_Record {S : Type} (t : Z) (p : Ptr S (list Z))
    : TlvRecord S :=
  MakeDynamicRecord t p hashLen sparseHashEncoder sparseHashDecoder.

(** ** HTLC entries *)

Record HTLCEntry : Type := MakeHTLCEntry {
  RHash : list Z;          (* SparsePayHash, [32]byte *)
  RefundTimeout : Z;       (* uint32 *)
  OutputIndex : Z;         (* uint16 *)
  Incoming : bool;
  Amt : Z                  (* BigSizeT, stored as uint64 *)
}.

Definition zeroHTLCEntry : HTLCEntry := MakeHTLCEntry ZeroHash 0 0 false 0.

Definition pRHash : Ptr HTLCEntry (list Z) :=
  MakePtr RHash (fun v h =>
    MakeHTLCEntry v (RefundTimeout h) (OutputIndex h) (Incoming h) (Amt h)).
Definition pRefundTimeout : Ptr HTLCEntry Z :=
  MakePtr RefundTimeout (fun v h =>
    MakeHTLCEntry (RHash h) v (OutputIndex h) (Incoming h) (Amt h)).
Definition pOutputIndex : Ptr HTLCEntry Z :=
  MakePtr OutputIndex (fun v h =>
    MakeHTLCEntry (RHash h) (RefundTimeout h) v (Incoming h) (Amt h)).
Definition pIncoming : Ptr HTLCEntry bool :=
  MakePtr Incoming (fun v h =>
    MakeHTLCEntry (RHash h) (RefundTimeout h) (OutputIndex h) v (Amt h)).
Definition pAmt : Ptr HTLCEntry Z :=
  MakePtr Amt (fun v h =>
    MakeHTLCEntry (RHash h) (RefundTimeout h) (OutputIndex h) (Incoming h) v).

(** The stream of an entry: the records of its five fields, bound to the
    entry the stream encodes from or decodes into. *)
Definition toTlvStream : Stream HTLCEntry :=
  [ SparsePayHash_Record 0 pRHash;
    MakeUint32Record 1 pRefundTimeout;
    MakeUint16Record 2 pOutputIndex;
    MakeBoolRecord 3 pIncoming;
    MakeBigSizeRecord 4 pAmt ].

(** ** The revocation log *)

Definition revLogOurOutputIndexType : Z := 0.
Definition revLogTheirOutputIndexType : Z := 1.
Definition revLogCommitTxHashType : Z := 2.
Definition revLogOurBalanceType : Z := 3.
Definition revLogTheirBalanceType : Z := 4.

Record RevocationLog : Type := MakeRevocationLog {
  OurOutputIndex : Z;            (* uint16 *)
  TheirOutputIndex : Z;          (* uint16 *)
  CommitTxHash : list Z;         (* [32]byte *)
  HTLCEntries : list HTLCEntry;
  OurBalance : option Z;         (* *lnwire.MilliSatoshi, uint64 *)
  TheirBalance : option Z
}.

Definition zeroRevocationLog : RevocationLog :=
  MakeRevocationLog 0 0 ZeroHash [] None None.

(** The variables the records of the header point to: the log itself and the
    two local [uint64] ([lb] and [rb] when encoding, [ourBalance] and
    [theirBalance] when decoding). *)
Record headerVars : Type := MakeHeaderVars {
  rl : RevocationLog;
  ourBalance : Z;
  theirBalance : Z
}.

Definition withOurOutputIndex (v : Z) (l : RevocationLog) : RevocationLog :=
  MakeRevocationLog v (TheirOutputIndex l) (CommitTxHash l) (HTLCEntries l)
    (OurBalance l) (TheirBalance l).
Definition withTheirOutputIndex (v : Z) (l : RevocationLog) : RevocationLog :=
  MakeRevocationLog (OurOutputIndex l) v (CommitTxHash l) (HTLCEntries l)
    (OurBalance l) (TheirBalance l).
Definition withCommitTxHash (v : list Z) (l : RevocationLog) : RevocationLog :=
  MakeRevocationLog (OurOutputIndex l) (TheirOutputIndex l) v (HTLCEntries l)
    (OurBalance l) (TheirBalance l).
Definition withHTLCEntries (v : list HTLCEntry) (l : RevocationLog)
    : RevocationLog :=
  MakeRevocationLog (OurOutputIndex l) (TheirOutputIndex l) (CommitTxHash l) v
    (OurBalance l) (TheirBalance l).
Definition withOurBalance (v : option Z) (l : RevocationLog) : RevocationLog :=
  MakeRevocationLog (OurOutputIndex l) (TheirOutputIndex l) (CommitTxHash l)
    (HTLCEntries l) v (TheirBalance l).
Definition withTheirBalance (v : option Z) (l : RevocationLog) : RevocationLog :=
  MakeRevocationLog (OurOutputIndex l) (TheirOutputIndex l) (CommitTxHash l)
    (HTLCEntries l) (OurBalance l) v.

Definition onLog (f : RevocationLog -> RevocationLog) (v : headerVars)
    : headerVars :=
  MakeHeaderVars (f (rl v)) (ourBalance v) (theirBalance v).

Definition pOurOutputIndex : Ptr headerVars Z :=
  MakePtr (fun v => OurOutputIndex (rl v)) (fun x => onLog (withOurOutputIndex x)).
Definition pTheirOutputIndex : Ptr headerVars Z :=
  MakePtr (fun v => TheirOutputIndex (rl v))
    (fun x => onLog (withTheirOutputIndex x)).
Definition pCommitTxHash : Ptr headerVars (list Z) :=
  MakePtr (fun v => CommitTxHash (rl v)) (fun x => onLog (withCommitTxHash x)).
Definition pOurBalanceVar : Ptr headerVars Z :=
  MakePtr ourBalance (fun x v => MakeHeaderVars (rl v) x (theirBalance v)).
Definition pTheirBalanceVar : Ptr headerVars Z :=
  MakePtr theirBalance (fun x v => MakeHeaderVars (rl v) (ourBalance v) x).

Definition mandatoryRecords : Stream headerVars :=
  [ MakeUint16Record revLogOurOutputIndexType pOurOutputIndex;
    MakeUint16Record revLogTheirOutputIndexType pTheirOutputIndex;
    MakeBytes32Record revLogCommitTxHashType pCommitTxHash ].

Definition serializeHTLCEntries (htlcs : list HTLCEntry) : list Z :=
  concat (map (writeTlvStream toTlvStream) htlcs).

Definition serializeRevocationLog (l : RevocationLog) : list Z :=
  let records := mandatoryRecords in
  let vars := MakeHeaderVars l 0 0 in
  let '(vars, records) :=
    match OurBalance l with
    | Some b => (store pOurBalanceVar b vars,
                 records ++ [MakeBigSizeRecord revLogOurBalanceType pOurBalanceVar])
    | None => (vars, records)
    end in
  let '(vars, records) :=
    match TheirBalance l with
    | Some b => (store pTheirBalanceVar b vars,
                 records ++ [MakeBigSizeRecord revLogTheirBalanceType pTheirBalanceVar])
    | None => (vars, records)
    end in
  writeTlvStream records vars ++ serializeHTLCEntries (HTLCEntries l).

(** The loop of [deserializeHTLCEntries]: [io.ErrUnexpectedEOF] from the read
    of an entry ends the list, any other error is returned. *)
Fixpoint deserializeHTLCEntriesLoop (fuel : nat) (r : Reader)
    (htlcs : list HTLCEntry) : result (list HTLCEntry) :=
  match fuel with
  | O => Err ErrFuel
  | S fuel' =>
      match readTlvStream r toTlvStream zeroHTLCEntry with
      | Err ErrUnexpectedEOF => Ok htlcs
      | Err e => Err e
      | Ok (htlc, _, r') => deserializeHTLCEntriesLoop fuel' r' (htlcs ++ [htlc])
      end
  end.

Definition deserializeHTLCEntries (r : Reader) : result (list HTLCEntry) :=
  deserializeHTLCEntriesLoop (S (length r)) r [].

Definition headerStream : Stream headerVars :=
  mandatoryRecords ++
  [ MakeBigSizeRecord revLogOurBalanceType pOurBalanceVar;
    MakeBigSizeRecord revLogTheirBalanceType pTheirBalanceVar ].

Definition deserializeRevocationLog (r : Reader) : result RevocationLog :=
  let vars := MakeHeaderVars zeroRevocationLog 0 0 in
  '(vars, parsedTypes, r') ← readTlvStream r headerStream vars;
  let l := rl vars in
  let l :=
    match parsedTypes !! revLogOurBalanceType with
    | Some None => withOurBalance (Some (ourBalance vars)) l
    | _ => l
    end in
  let l :=
    match parsedTypes !! revLogTheirBalanceType with
    | Some None => withTheirBalance (Some (theirBalance vars)) l
    | _ => l
    end in
  htlcs ← deserializeHTLCEntries r';
  Ok (withHTLCEntries htlcs l).

(** ** Well-formed values: the ranges of the Go types *)

Definition is_u16 (v : Z) : bool := (0 <=? v) && (v <? 2 ^ 16).
Definition is_u32 (v : Z) : bool := (0 <=? v) && (v <? 2 ^ 32).
Definition is_u64 (v : Z) : bool := (0 <=? v) && (v <? 2 ^ 64).

Definition is_hash (h : list Z) : bool :=
  (length h =? 32)%nat && is_bytes h.

Definition wf_HTLCEntry (h : HTLCEntry) : bool :=
  is_hash (RHash h) && is_u32 (RefundTimeout h) && is_u16 (OutputIndex h)
  && is_u64 (Amt h).

Definition wf_balance (b : option Z) : bool :=
  match b with
  | Some v => is_u64 v
  | None => true
  end.

Definition wf_RevocationLog (l : RevocationLog) : bool :=
  is_u16 (OurOutputIndex l) && is_u16 (TheirOutputIndex l)
  && is_hash (CommitTxHash l) && forallb wf_HTLCEntry (HTLCEntries l)
  && wf_balance (OurBalance l) && wf_balance (TheirBalance l).

(** ** Fields on the wire

    A field as the on-disk layout has it: its type, its length as a varint,
    its value.  The lemmas of this section relate the decoding loop to the
    list of fields a byte string is made of. *)

Record wfield : Type := MakeField {
  wtyp : Z;
  wval : list Z
}.

Definition encodeField (f : wfield) : list Z :=
  WriteVarInt (wtyp f) ++ WriteVarInt (Z.of_nat (length (wval f))) ++ wval f.

Definition encodeFields (fs : list wfield) : list Z :=
  concat (map encodeField fs).

(** The type and the length of a field fit a [uint64]. *)
Definition field_ok (f : wfield) : Prop :=
  0 <= wtyp f < 2 ^ 64 /\ Z.of_nat (length (wval f)) < 2 ^ 64.

(** The field a record writes for the value [s]. *)
Definition fieldOf {S : Type} (s : S) (rec : TlvRecord S) : wfield :=
  MakeField (typ rec) (encoder rec s).

Section FieldDecoding.
Context {S : Type} (st : Stream S).

(** What decoding the field [f] does to the value decoded into: the decoder
    of the record of its type consumes exactly the value of the field and
    leaves [upd s]; a field of an unknown type changes nothing. *)
Definition decodesAs (f : wfield) (upd : S -> S) : Prop :=
  match getRecord st (wtyp f) with
  | Some rec => forall rest s,
      decoder rec (wval f ++ rest) (Z.of_nat (length (wval f))) s
      = Ok (upd s, rest)
  | None => forall s, upd s = s
  end.

Definition noteField (parsedTypes : TypeMap) (f : wfield) : TypeMap :=
  <[wtyp f := match getRecord st (wtyp f) with
              | Some _ => None
              | None => Some (wval f)
              end]> parsedTypes.

Definition applyFields (upd : wfield -> S -> S) (s : S) (fs : list wfield) : S :=
  foldl (fun s f => upd f s) s fs.

End FieldDecoding.

(** The fields [toTlvStream] writes for the entry [h]. *)
Definition htlcFields (h : HTLCEntry) : list wfield :=
  map (fieldOf h) toTlvStream.

(** What decoding a field written for [h] does to the entry decoded into. *)
Definition htlcUpd (h : HTLCEntry) (f : wfield) (s : HTLCEntry) : HTLCEntry :=
  if wtyp f =? 0 then
    store pRHash (if bytes_Equal (RHash h) ZeroHash then RHash s else RHash h) s
  else if wtyp f =? 1 then store pRefundTimeout (RefundTimeout h) s
  else if wtyp f =? 2 then store pOutputIndex (OutputIndex h) s
  else if wtyp f =? 3 then store pIncoming (Incoming h) s
  else if wtyp f =? 4 then store pAmt (Amt h) s
  else s.

(** The records and the variables [serializeRevocationLog] hands to
    [writeTlvStream]. *)
Definition headerRecords (l : RevocationLog) : Stream headerVars :=
  mandatoryRecords
  ++ match OurBalance l with
     | Some _ => [MakeBigSizeRecord revLogOurBalanceType pOurBalanceVar]
     | None => []
     end
  ++ match TheirBalance l with
     | Some _ => [MakeBigSizeRecord revLogTheirBalanceType pTheirBalanceVar]
     | None => []
     end.

Definition headerVarsOf (l : RevocationLog) : headerVars :=
  MakeHeaderVars l (default 0 (OurBalance l)) (default 0 (TheirBalance l)).

Definition headerFields (l : RevocationLog) : list wfield :=
  map (fieldOf (headerVarsOf l)) (headerRecords l).

Definition headerUpd (l : RevocationLog) (f : wfield) (s : headerVars)
    : headerVars :=
  if wtyp f =? 0 then store pOurOutputIndex (OurOutputIndex l) s
  else if wtyp f =? 1 then store pTheirOutputIndex (TheirOutputIndex l) s
  else if wtyp f =? 2 then store pCommitTxHash (CommitTxHash l) s
  else if wtyp f =? 3 then store pOurBalanceVar (default 0 (OurBalance l)) s
  else if wtyp f =? 4 then store pTheirBalanceVar (default 0 (TheirBalance l)) s
  else s.


(** ** Commitments and buckets *)

Definition MaxUint16 : Z := 65535.

(** The conversions [uint16(v)] and [uint64(v)]. *)
Definition uint16 (v : Z) : Z := v mod 2 ^ 16.
Definition uint64 (v : Z) : Z := v mod 2 ^ 64.

(** The fields of [channeldb.HTLC] this file reads. *)
Module HTLC.
Record t : Type := Make {
  RHash : list Z;        (* [32]byte *)
  RefundTimeout : Z;     (* uint32 *)
  OutputIndex : Z;       (* int32 *)
  Incoming : bool;
  Amt : Z                (* lnwire.MilliSatoshi, uint64 *)
}.
End HTLC.

Definition revocationLogBucketDeprecated : string := "revocation-log-key".
Definition revocationLogBucket : string := "revocation-log".

(** Modelled from the spec: the kvdb package is not among the sources.  A
    bucket maps keys to values, a channel bucket maps the names of its nested
    buckets to them; [get] of an absent key is not an error, [put] is an
    upsert, and deleting a nested bucket removes it and all it holds (6). *)
Abbreviation Bucket := (gmap (list Z) (list Z)).
Abbreviation ChanBucket := (gmap string (gmap (list Z) (list Z))).

(** Modelled from the spec: [kvdb.RBucket.Get]; absent is not an error. *)
Definition Get (b : Bucket) (key : list Z) : option (list Z) := b !! key.

(** Modelled from the spec: [kvdb.RwBucket.Put], an upsert. *)
Definition Put (b : Bucket) (key value : list Z) : Bucket * option error :=
  (<[key := value]> b, None).

(** Modelled from the spec: [kvdb.RBucket.NestedReadBucket]; nil when the
    channel bucket has no nested bucket of that name. *)
Definition NestedReadBucket (cb : ChanBucket) (name : string) : option Bucket :=
  cb !! name.

(** Modelled from the spec: [kvdb.RwBucket.NestedReadWriteBucket]. *)
Definition NestedReadWriteBucket (cb : ChanBucket) (name : string)
    : option Bucket :=
  cb !! name.

(** Modelled from the spec: [kvdb.RwBucket.DeleteNestedBucket]; the nested
    bucket and all under it are removed. *)
Definition DeleteNestedBucket (cb : ChanBucket) (name : string)
    : ChanBucket * option error :=
  (delete name cb, None).

Definition fetchRevocationLog (log : Bucket) (updateNum : Z)
    : result RevocationLog :=
  match Get log (makeLogKey updateNum) with
  | None => Err ErrLogEntryNotFound
  | Some commitBytes => deserializeRevocationLog commitBytes
  end.

Definition deleteLogBucket (chanBucket : ChanBucket) : ChanBucket * option error :=
  let '(chanBucket, err) :=
    match NestedReadWriteBucket chanBucket revocationLogBucket with
    | Some _ => DeleteNestedBucket chanBucket revocationLogBucket
    | None => (chanBucket, None)
    end in
  match err with
  | Some e => (chanBucket, Some e)
  | None =>
      match NestedReadWriteBucket chanBucket revocationLogBucketDeprecated with
      | Some _ => DeleteNestedBucket chanBucket revocationLogBucketDeprecated
      | None => (chanBucket, None)
      end
  end.

Section Channel.
(** The parts of the commitment that come from other packages: the
    transaction type with its hash ([wire.MsgTx.TxHash], a [32]byte), the
    conversion of an amount to satoshis ([lnwire.MilliSatoshi.ToSatoshis]),
    and the decoder of the records of the deprecated bucket
    ([deserializeChanCommit]). *)
Variable MsgTx : Type.
Variable TxHash : MsgTx -> list Z.
Variable ToSatoshis : Z -> Z.

Record ChannelCommitment : Type := MakeChannelCommitment {
  CommitHeight : Z;      (* uint64 *)
  LocalBalance : Z;      (* lnwire.MilliSatoshi *)
  RemoteBalance : Z;
  CommitTx : MsgTx;
  Htlcs : list HTLC.t
}.

Variable deserializeChanCommit : list Z -> result ChannelCommitment.

Definition NewHTLCEntryFromHTLC (htlc : HTLC.t) : HTLCEntry :=
  MakeHTLCEntry (HTLC.RHash htlc) (HTLC.RefundTimeout htlc)
    (uint16 (HTLC.OutputIndex htlc)) (HTLC.Incoming htlc)
    (uint64 (ToSatoshis (HTLC.Amt htlc))).

(** The loop of [putRevocationLog] over [commit.Htlcs]. *)
Fixpoint appendEntries (htlcs : list HTLC.t) (entries : list HTLCEntry)
    : result (list HTLCEntry) :=
  match htlcs with
  | [] => Ok entries
  | htlc :: htlcs' =>
      if HTLC.OutputIndex htlc <? 0 then appendEntries htlcs' entries
      else if HTLC.OutputIndex htlc >? MaxUint16 then Err ErrOutputIndexTooBig
      else appendEntries htlcs' (entries ++ [NewHTLCEntryFromHTLC htlc])
  end.

Definition putRevocationLog (bucket : Bucket) (commit : ChannelCommitment)
    (ourOutputIndex theirOutputIndex : Z) (noAmtData : bool)
    : Bucket * option error :=
  if ourOutputIndex >? MaxUint16 then (bucket, Some ErrOutputIndexTooBig)
  else if theirOutputIndex >? MaxUint16 then (bucket, Some ErrOutputIndexTooBig)
  else
    let l := MakeRevocationLog (uint16 ourOutputIndex) (uint16 theirOutputIndex)
               (TxHash (CommitTx commit)) [] None None in
    let l := if noAmtData then l
             else withTheirBalance (Some (RemoteBalance commit))
                    (withOurBalance (Some (LocalBalance commit)) l) in
    match appendEntries (Htlcs commit) (HTLCEntries l) with
    | Err e => (bucket, Some e)
    | Ok entries =>
        let l := withHTLCEntries entries l in
        let b := serializeRevocationLog l in
        Put bucket (makeLogKey (CommitHeight commit)) b
    end.

Definition fetchOldRevocationLog (log : Bucket) (updateNum : Z)
    : result ChannelCommitment :=
  match Get log (makeLogKey updateNum) with
  | None => Err ErrLogEntryNotFound
  | Some commitBytes => deserializeChanCommit commitBytes
  end.

(** The three values returned: the log of the new bucket, the commitment of
    the old bucket, the error. *)
Definition fetchRevocationLogCompatible (chanBucket : ChanBucket) (updateNum : Z)
    : option RevocationLog * option ChannelCommitment * option error :=
  let logBucket := NestedReadBucket chanBucket revocationLogBucket in
  let found :=
    match logBucket with
    | Some lb =>
        match fetchRevocationLog lb updateNum with
        | Ok l => Some (Some l, None, None)
        | Err ErrLogEntryNotFound => None
        | Err e => Some (None, None, Some e)
        end
    | None => None
    end in
  match found with
  | Some res => res
  | None =>
      let oldBucket := NestedReadBucket chanBucket revocationLogBucketDeprecated in
      match oldBucket with
      | Some ob =>
          match fetchOldRevocationLog ob updateNum with
          | Err e => (None, None, Some e)
          | Ok c => (None, Some c, None)
          end
      | None =>
          match logBucket, oldBucket with
          | None, None => (None, None, Some ErrNoPastDeltas)
          | _, _ => (None, None, Some ErrLogEntryNotFound)
          end
      end
  end.

(** The log [putRevocationLog] builds from a commitment whose indexes pass
    its checks. *)
Definition revocationLogOf (commit : ChannelCommitment)
    (ourOutputIndex theirOutputIndex : Z) (noAmtData : bool) : RevocationLog :=
  MakeRevocationLog (uint16 ourOutputIndex) (uint16 theirOutputIndex)
    (TxHash (CommitTx commit))
    (map NewHTLCEntryFromHTLC
       (List.filter (fun h => 0 <=? HTLC.OutputIndex h) (Htlcs commit)))
    (if noAmtData then None else Some (LocalBalance commit))
    (if noAmtData then None else Some (RemoteBalance commit)).

(** Some index handed to [putRevocationLog] is over [math.MaxUint16]: ours,
    theirs, or that of an HTLC whose index is not negative. *)
Definition indexTooBig (commit : ChannelCommitment)
    (ourOutputIndex theirOutputIndex : Z) : bool :=
  (ourOutputIndex >? MaxUint16) || (theirOutputIndex >? MaxUint16)
  || existsb (fun h => (0 <=? HTLC.OutputIndex h)
                       && (HTLC.OutputIndex h >? MaxUint16)) (Htlcs commit).

(** The commitment without its dust HTLCs. *)
Definition withoutDust (commit : ChannelCommitment) : ChannelCommitment :=
  MakeChannelCommitment (CommitHeight commit) (LocalBalance commit)
    (RemoteBalance commit) (CommitTx commit)
    (List.filter (fun h => 0 <=? HTLC.OutputIndex h) (Htlcs commit)).

Definition wf_HTLC (h : HTLC.t) : bool :=
  is_hash (HTLC.RHash h) && is_u32 (HTLC.RefundTimeout h)
  && (- 2 ^ 31 <=? HTLC.OutputIndex h) && (HTLC.OutputIndex h <? 2 ^ 31)
  && is_u64 (HTLC.Amt h).

Definition wf_ChannelCommitment (c : ChannelCommitment) : bool :=
  is_u64 (CommitHeight c) && is_u64 (LocalBalance c) && is_u64 (RemoteBalance c)
  && is_hash (TxHash (CommitTx c)) && forallb wf_HTLC (Htlcs c).
End Channel.

Arguments MakeChannelCommitment {MsgTx} _ _ _ _ _.
Arguments CommitHeight {MsgTx} c.
Arguments LocalBalance {MsgTx} c.
Arguments RemoteBalance {MsgTx} c.
Arguments CommitTx {MsgTx} c.
Arguments Htlcs {MsgTx} c.
Arguments putRevocationLog {MsgTx} TxHash ToSatoshis bucket commit _ _ _.
Arguments fetchOldRevocationLog {MsgTx} deserializeChanCommit log updateNum.
Arguments fetchRevocationLogCompatible {MsgTx} deserializeChanCommit
  chanBucket updateNum.
Arguments revocationLogOf {MsgTx} TxHash ToSatoshis commit _ _ _.
Arguments indexTooBig {MsgTx} commit _ _.
Arguments withoutDust {MsgTx} commit.
Arguments wf_ChannelCommitment {MsgTx} TxHash c.

(** ** Sample values *)

Definition ex_hash : list Z := seqZ 1 32.

(** A log with three entries (two non-zero hashes, one zero hash with a zero
    amount), our balance present and zero, their balance absent. *)
Definition ex_log : RevocationLog :=
  MakeRevocationLog 65535 7 ex_hash
    [ MakeHTLCEntry ex_hash 500000 3 true 70000;
      zeroHTLCEntry;
      MakeHTLCEntry (repeat 255 32) 1 2 false 252 ]
    (Some 0) None.

(** A commitment whose transaction is stood for by its hash, with two dust
    HTLCs around two HTLCs that have an output; satoshis are a thousandth of
    the amount. *)
Definition ex_commit : ChannelCommitment (list Z) :=
  MakeChannelCommitment 10 5000 0 ex_hash
    [ HTLC.Make ex_hash 100 (-1) true 1000;
      HTLC.Make ex_hash 200 65535 false 2500;
      HTLC.Make ZeroHash 300 (-1) false 0;
      HTLC.Make ZeroHash 400 0 true 999 ].

Definition ex_TxHash (tx : list Z) : list Z := tx.
Definition ex_ToSatoshis (m : Z) : Z := m / 1000.
Definition ex_deserializeChanCommit (b : list Z)
    : result (ChannelCommitment (list Z)) :=
  match b with
  | [] => Err ErrUnexpectedEOF
  | h :: _ => Ok (MakeChannelCommitment h 0 0 ex_hash [])
  end.

(** A channel bucket with a record at height 10 in the deprecated bucket
    only, and the same after [ex_commit] is written to the new bucket. *)
Definition ex_legacy_only : ChanBucket :=
  {[ revocationLogBucketDeprecated := {[ makeLogKey 10 := [7] ]} ]}.

Definition ex_both : ChanBucket :=
  <[ revocationLogBucket :=
       (putRevocationLog ex_TxHash ex_ToSatoshis ∅ ex_commit 65535 1 false).1 ]>
    ex_legacy_only.

(** A channel bucket whose new bucket holds bytes that do not decode. *)
Definition ex_corrupt : ChanBucket :=
  <[ revocationLogBucket := {[ makeLogKey 10 := [2; 0; 5] ]} ]> ex_legacy_only.

(** A list of fields framed as [writeTlvStream] frames a stream. *)
Definition frameFields (fs : list wfield) : list Z :=
  WriteVarInt (Z.of_nat (length (encodeFields fs))) ++ encodeFields fs.

(** A field whose type none of the records of an entry or of the header has
    (their types are 0 to 4). *)
Definition unknown_field (f : wfield) : Prop :=
  4 < wtyp f < 2 ^ 64 /\ Z.of_nat (length (wval f)) < 2 ^ 64.


(** The fields of an entry in reverse order behind a field of an unknown
    type, and those of the header of [ex_log] in reverse order before it. *)
Definition ex_entry : HTLCEntry := MakeHTLCEntry ex_hash 500000 3 true 70000.



(** A record whose decoder never lengthens the reader and never reports the
    loop bound of the model. *)
Definition tame {S : Type} (rec : TlvRecord S) : Prop :=
  forall r l s,
    match decoder rec r l s with
    | Ok (_, r') => (length r' <= length r)%nat
    | Err e => e <> ErrFuel
    end.

(** ** Tactics *)

(** Unfolds the records of the header down to their codecs. *)
Ltac unfold_header :=
  cbv [headerFields headerRecords headerVarsOf mandatoryRecords headerStream
       app map fieldOf typ encoder sizeFunc wtyp wval getRecord find Z.eqb
       Pos.eqb MakeUint16Record MakeBytes32Record MakeBigSizeRecord
       MakeStaticRecord MakeDynamicRecord load pOurOutputIndex
       pTheirOutputIndex pCommitTxHash pOurBalanceVar pTheirBalanceVar
       revLogOurOutputIndexType revLogTheirOutputIndexType
       revLogCommitTxHashType revLogOurBalanceType revLogTheirBalanceType
       OurBalance TheirBalance OurOutputIndex TheirOutputIndex CommitTxHash
       rl ourBalance theirBalance default from_option id].

(** ** The log bucket of a channel *)

(** The new bucket when the channel bucket has it, the deprecated bucket
    otherwise, and [ErrNoPastDeltas] when it has neither. *)
Definition fetchLogBucket (chanBucket : ChanBucket) : result Bucket :=
  match NestedReadBucket chanBucket revocationLogBucket with
  | Some logBucket => Ok logBucket
  | None =>
      match NestedReadBucket chanBucket revocationLogBucketDeprecated with
      | Some logBucket => Ok logBucket
      | None => Err ErrNoPastDeltas
      end
  end.

(** A record whose decoder fails only with the errors of a read: the end of
    the input, or a declared length that is not the size of the value. *)
Definition mild {S : Type} (rec : TlvRecord S) : Prop :=
  forall r l s e, decoder rec r l s = Err e ->
    e = EOF \/ e = ErrUnexpectedEOF \/ e = ErrInvalidFieldLength.

(** The configuration of the sweeper (package [lncfg]). *)

Definition MaxFeeRateFloor : Z := 100.
Definition MaxAllowedFeeRate : Z := 10000.

Section SweeperConfig.
(** The budget configuration and its validation belong to package
    [contractcourt]; the error of the validation is taken by its message. *)
Variable BudgetConfig : Type.
Variable BudgetValidate : BudgetConfig -> option string.

Record Sweeper : Type := MakeSweeper {
  BatchWindowDuration : Z;     (* time.Duration, int64 *)
  MaxFeeRate : Z;              (* chainfee.SatPerVByte *)
  NoDeadlineConfTarget : Z;    (* uint32 *)
  Budget : BudgetConfig
}.

(** [Sweeper.Validate]: the error returned, by its message, or [None]. *)
Definition Validate (s : Sweeper) : option string :=
  if BatchWindowDuration s <? 0 then
    Some "batchwindowduration must be positive"
  else if MaxFeeRate s <? MaxFeeRateFloor then
    Some "maxfeerate must be >= 100 sat/vb"
  else if MaxFeeRate s >? MaxAllowedFeeRate then
    Some "maxfeerate must be <= 10000 sat/vb"
  else if NoDeadlineConfTarget s <? 144 then
    Some "nodeadlineconftarget must be at least 144"
  else
    match BudgetValidate (Budget s) with
    | Some err => Some ("invalid budget config: " +:+ err)
    | None => None
    end.
End SweeperConfig.

Arguments MakeSweeper {BudgetConfig} _ _ _ _.
Arguments BatchWindowDuration {BudgetConfig} s.
Arguments MaxFeeRate {BudgetConfig} s.
Arguments NoDeadlineConfTarget {BudgetConfig} s.
Arguments Budget {BudgetConfig} s.
Arguments Validate {BudgetConfig} BudgetValidate s.

(** A budget validation that rejects a negative budget, and a configuration
    at the bounds of what is accepted. *)
Definition ex_BudgetValidate (b : Z) : option string :=
  if b <? 0 then Some "negative budget" else None.

Definition ex_sweeper : Sweeper Z := MakeSweeper 0 100 144 0.

(** A second commitment at the height of [ex_commit], and one at another
    height. *)
Definition ex_commit2 : ChannelCommitment (list Z) :=
  MakeChannelCommitment 10 1 2 (repeat 9 32)
    [ HTLC.Make ZeroHash 7 3 true 5000 ].

Definition ex_commit3 : ChannelCommitment (list Z) :=
  MakeChannelCommitment 11 0 0 ex_hash [].

(** * Properties *)

(** ** Integers and readers *)

Lemma length_be_bytes (n : nat) (v : Z) : length (be_bytes n v) = n.
Proof. induction n as [|n IH]; simpl; [reflexivity | now rewrite IH]. Qed.

Lemma be_value_be_bytes (n : nat) (v acc : Z) :
  be_value (be_bytes n v) acc = acc * 256 ^ Z.of_nat n + v mod 256 ^ Z.of_nat n.
Proof.
  revert acc. induction n as [|n IH]; intros acc.
  - simpl. rewrite Z.mod_1_r. lia.
  - cbn [be_bytes be_value]. rewrite IH.
    rewrite Nat2Z.inj_succ, Z.pow_succ_r by lia.
    rewrite (Z.mul_comm 256 (256 ^ Z.of_nat n)).
    rewrite (Z.rem_mul_r v (256 ^ Z.of_nat n) 256) by lia.
    lia.
Qed.

Lemma be_roundtrip (n : nat) (v : Z) :
  0 <= v < 256 ^ Z.of_nat n -> be_value (be_bytes n v) 0 = v.
Proof.
  intros Hv. rewrite be_value_be_bytes, Z.mod_small by lia. lia.
Qed.

Lemma readFull_app (bs rest : list Z) :
  readFull (length bs) (bs ++ rest) = Ok (bs, rest).
Proof.
  destruct bs as [|b bs]; [reflexivity|].
  unfold readFull. cbn [length app].
  replace (S (length (bs ++ rest)) <? S (length bs))%nat with false.
  - change (b :: bs ++ rest) with ((b :: bs) ++ rest).
    change (S (length bs)) with (length (b :: bs)).
    now rewrite take_app_length, drop_app_length.
  - symmetry. apply Nat.ltb_ge. rewrite length_app. lia.
Qed.

Lemma ReadVarInt_WriteVarInt (v : Z) (rest : list Z) :
  0 <= v < 2 ^ 64 -> ReadVarInt (WriteVarInt v ++ rest) = Ok (v, rest).
Proof.
  intros Hv. unfold WriteVarInt.
  destruct (v <? 253) eqn:H1.
  - simpl. now rewrite H1.
  - destruct (v <=? 65535) eqn:H2; [|destruct (v <=? 4294967295) eqn:H3].
    + cbn [app ReadVarInt]. change (253 <? 253) with false. cbv iota.
      change (253 =? 253) with true. cbv iota.
      rewrite <- (length_be_bytes 2 v) at 1. rewrite readFull_app.
      rewrite be_roundtrip; [reflexivity|]. simpl. lia.
    + cbn [app ReadVarInt]. change (254 <? 253) with false.
      change (254 =? 253) with false. change (254 =? 254) with true. cbv iota.
      rewrite <- (length_be_bytes 4 v) at 1. rewrite readFull_app.
      rewrite be_roundtrip; [reflexivity|]. simpl. lia.
    + cbn [app ReadVarInt]. change (255 <? 253) with false.
      change (255 =? 253) with false. change (255 =? 254) with false. cbv iota.
      rewrite <- (length_be_bytes 8 v) at 1. rewrite readFull_app.
      rewrite be_roundtrip; [reflexivity|]. simpl. lia.
Qed.

Lemma length_WriteVarInt (v : Z) : (1 <= length (WriteVarInt v) <= 9)%nat.
Proof.
  unfold WriteVarInt.
  repeat match goal with |- context [if ?c then _ else _] => destruct c end;
    cbn [length]; rewrite ?length_be_bytes; lia.
Qed.

Lemma length_encodeFields (fs : list wfield) :
  (2 * length fs <= length (encodeFields fs))%nat.
Proof.
  induction fs as [|f fs IH]; [simpl; lia|].
  unfold encodeFields in *. cbn [map concat length].
  unfold encodeField at 1. rewrite !length_app.
  pose proof (length_WriteVarInt (wtyp f)).
  pose proof (length_WriteVarInt (Z.of_nat (length (wval f)))). lia.
Qed.

Lemma encodeFields_app (fs gs : list wfield) :
  encodeFields (fs ++ gs) = encodeFields fs ++ encodeFields gs.
Proof. unfold encodeFields. now rewrite map_app, concat_app. Qed.

Section Fields.
Context {S : Type} (st : Stream S).

Lemma decodeLoop_fields (upd : wfield -> S -> S) (fs : list wfield) :
  Forall (fun f => field_ok f /\ decodesAs st f (upd f)) fs ->
  forall fuel s parsedTypes, (length fs < fuel)%nat ->
  decodeLoop fuel st (encodeFields fs) s parsedTypes
  = Ok (applyFields upd s fs, foldl (noteField st) parsedTypes fs, []).
Proof.
  induction 1 as [|f fs [[Ht Hl] Hd] _ IH]; intros fuel s pt Hfuel.
  - destruct fuel; [simpl in Hfuel; lia | reflexivity].
  - destruct fuel as [|fuel]; [simpl in Hfuel; lia|].
    assert (Hfuel' : (length fs < fuel)%nat) by (simpl in Hfuel; lia).
    change (encodeFields (f :: fs)) with (encodeField f ++ encodeFields fs).
    unfold encodeField. rewrite <- !app_assoc.
    cbn [decodeLoop].
    rewrite ReadVarInt_WriteVarInt by exact Ht.
    rewrite ReadVarInt_WriteVarInt by lia.
    unfold decodesAs in Hd. unfold applyFields. cbn [foldl].
    unfold noteField at 2.
    destruct (getRecord st (wtyp f)) as [rec|].
    + rewrite Hd. apply IH, Hfuel'.
    + rewrite Nat2Z.id, take_app_length, drop_app_length, Hd.
      replace (length (wval f ++ encodeFields fs) <? length (wval f))%nat
        with false by (symmetry; apply Nat.ltb_ge; rewrite length_app; lia).
      apply IH, Hfuel'.
Qed.

Lemma int64_small (v : Z) : 0 <= v < 2 ^ 63 -> int64 v = v.
Proof. intros Hv. unfold int64. rewrite Z.mod_small; lia. Qed.

Lemma LimitReader_app (body rest : list Z) :
  LimitReader (body ++ rest) (Z.of_nat (length body)) = body.
Proof.
  unfold LimitReader. destruct body as [|b body]; [reflexivity|].
  replace (Z.of_nat (length (b :: body)) <=? 0) with false
    by (symmetry; apply Z.leb_gt; simpl length; lia).
  now rewrite Nat2Z.id, take_app_length.
Qed.

(** Reading a frame made of decodable fields applies them in order and leaves
    the reader behind the frame. *)
Lemma readTlvStream_fields (upd : wfield -> S -> S) (fs : list wfield)
    (rest : list Z) (s : S) :
  Forall (fun f => field_ok f /\ decodesAs st f (upd f)) fs ->
  Z.of_nat (length (encodeFields fs)) < 2 ^ 63 ->
  readTlvStream
    (WriteVarInt (Z.of_nat (length (encodeFields fs))) ++ encodeFields fs ++ rest)
    st s
  = Ok (applyFields upd s fs, foldl (noteField st) ∅ fs, rest).
Proof.
  intros Hfs Hlen. unfold readTlvStream.
  rewrite ReadVarInt_WriteVarInt by lia.
  rewrite int64_small by lia. rewrite LimitReader_app.
  unfold DecodeWithParsedTypes.
  rewrite (decodeLoop_fields upd fs Hfs)
    by (pose proof (length_encodeFields fs); lia).
  unfold mbind, result_bind. cbn [length].
  now rewrite Nat.sub_0_r, drop_app_length.
Qed.

(** After the fields [fs], a known type is in the map of parsed types, with
    the nil value, exactly when one of the fields carried it. *)
Lemma lookup_noteFields (fs : list wfield) (parsedTypes : TypeMap) (t : Z) :
  is_Some (getRecord st t) ->
  foldl (noteField st) parsedTypes fs !! t
  = if decide (t ∈ wtyp <$> fs) then Some None else parsedTypes !! t.
Proof.
  intros [rec Hrec]. revert parsedTypes.
  induction fs as [|f fs IH]; intros pt; [reflexivity|].
  cbn [foldl]. rewrite IH. rewrite fmap_cons.
  destruct (decide (t ∈ wtyp <$> fs)) as [Hin|Hnin].
  - rewrite decide_True by (apply elem_of_cons; now right). reflexivity.
  - unfold noteField. destruct (decide (wtyp f = t)) as [->|Hne].
    + rewrite decide_True by (apply elem_of_cons; now left).
      now rewrite lookup_insert_eq, Hrec.
    + rewrite decide_False by (rewrite elem_of_cons; intros [?|?]; congruence).
      now rewrite lookup_insert_ne.
Qed.

(** The bytes a stream writes are the fields of its records, as soon as each
    record declares the size of what it writes. *)
Lemma Encode_fields (recs : Stream S) (s : S) :
  Forall (fun rec => sizeFunc rec s = Z.of_nat (length (encoder rec s))) recs ->
  Encode recs s = encodeFields (map (fieldOf s) recs).
Proof.
  unfold Encode, encodeFields. induction 1 as [|rec recs Hrec _ IH]; [reflexivity|].
  cbn [map concat]. rewrite IH. f_equal.
  unfold encodeRecord, encodeField, fieldOf. cbn [wtyp wval]. now rewrite Hrec.
Qed.
End Fields.

(** ** The value codecs: what is written is read back *)

Lemma bytes_Equal_eq (a b : list Z) : bytes_Equal a b = true <-> a = b.
Proof.
  revert b. induction a as [|x a IH]; intros [|y b]; simpl; try easy.
  rewrite andb_true_iff, Z.eqb_eq, IH. split; [intros [-> ->]|intros [= -> ->]]; easy.
Qed.

Lemma DFixed_app (bs rest : list Z) :
  DFixed (length bs) (bs ++ rest) (Z.of_nat (length bs)) = Ok (bs, rest).
Proof. unfold DFixed. now rewrite Z.eqb_refl, readFull_app. Qed.

Lemma DFixed_len (n : nat) (bs rest : list Z) :
  length bs = n -> DFixed n (bs ++ rest) (Z.of_nat n) = Ok (bs, rest).
Proof. intros <-. apply DFixed_app. Qed.

Section RecordCodecs.
Context {S : Type}.

Lemma decoder_Uint16 (t : Z) (p : Ptr S Z) (v : Z) (rest : list Z) (s : S) :
  0 <= v < 2 ^ 16 ->
  decoder (MakeUint16Record t p) (EUint16 v ++ rest)
    (Z.of_nat (length (EUint16 v))) s = Ok (store p v s, rest).
Proof.
  intros Hv. cbn [MakeUint16Record MakeStaticRecord MakeDynamicRecord decoder].
  unfold DUint16, EUint16. rewrite length_be_bytes.
  rewrite <- (length_be_bytes 2 v) at 1 3. rewrite DFixed_app.
  unfold mbind, result_bind. now rewrite be_roundtrip by (simpl; lia).
Qed.

Lemma decoder_Uint32 (t : Z) (p : Ptr S Z) (v : Z) (rest : list Z) (s : S) :
  0 <= v < 2 ^ 32 ->
  decoder (MakeUint32Record t p) (EUint32 v ++ rest)
    (Z.of_nat (length (EUint32 v))) s = Ok (store p v s, rest).
Proof.
  intros Hv. cbn [MakeUint32Record MakeStaticRecord MakeDynamicRecord decoder].
  unfold DUint32, EUint32. rewrite length_be_bytes.
  rewrite <- (length_be_bytes 4 v) at 1 3. rewrite DFixed_app.
  unfold mbind, result_bind. now rewrite be_roundtrip by (simpl; lia).
Qed.

Lemma decoder_Bool (t : Z) (p : Ptr S bool) (v : bool) (rest : list Z) (s : S) :
  decoder (MakeBoolRecord t p) (EBool v ++ rest)
    (Z.of_nat (length (EBool v))) s = Ok (store p v s, rest).
Proof. now destruct v. Qed.

Lemma decoder_Bytes32 (t : Z) (p : Ptr S (list Z)) (v rest : list Z) (s : S) :
  length v = 32%nat ->
  decoder (MakeBytes32Record t p) (EBytes32 v ++ rest)
    (Z.of_nat (length (EBytes32 v))) s = Ok (store p v s, rest).
Proof.
  intros Hv. cbn [MakeBytes32Record MakeStaticRecord MakeDynamicRecord decoder].
  unfold DBytes32, EBytes32. rewrite <- Hv at 1. now rewrite DFixed_app.
Qed.

Lemma decoder_BigSize (t : Z) (p : Ptr S Z) (v : Z) (rest : list Z) (s : S) :
  0 <= v < 2 ^ 64 ->
  decoder (MakeBigSizeRecord t p) (WriteVarInt v ++ rest)
    (Z.of_nat (length (WriteVarInt v))) s = Ok (store p v s, rest).
Proof.
  intros Hv. cbn [MakeBigSizeRecord MakeDynamicRecord decoder].
  unfold DBigSize. now rewrite ReadVarInt_WriteVarInt.
Qed.

(** The sparse hash: nothing is written for the zero hash, and reading a
    field of length zero leaves the hash pointed to as it is. *)
Lemma decoder_SparsePayHash (t : Z) (p : Ptr S (list Z)) (v rest : list Z)
    (s : S) :
  length v = 32%nat ->
  decoder (SparsePayHash_Record t p) (sparseHashEncoder v ++ rest)
    (Z.of_nat (length (sparseHashEncoder v))) s
  = Ok (store p (if bytes_Equal v ZeroHash then load p s else v) s, rest).
Proof.
  intros Hv. cbn [SparsePayHash_Record MakeDynamicRecord decoder].
  unfold sparseHashDecoder, sparseHashEncoder.
  destruct (bytes_Equal v ZeroHash); [reflexivity|].
  unfold EBytes32. rewrite Hv. change (Z.of_nat 32 =? 0) with false. cbv iota.
  unfold DBytes32. change 32 with (Z.of_nat 32).
  now rewrite (DFixed_len 32 v rest Hv).
Qed.

Lemma size_SparsePayHash (t : Z) (p : Ptr S (list Z)) (s : S) :
  length (load p s) = 32%nat ->
  sizeFunc (SparsePayHash_Record t p) s
  = Z.of_nat (length (encoder (SparsePayHash_Record t p) s)).
Proof.
  intros Hv. cbn [SparsePayHash_Record MakeDynamicRecord sizeFunc encoder].
  unfold hashLen, sparseHashEncoder, EBytes32.
  destruct (bytes_Equal (load p s) ZeroHash); [reflexivity | now rewrite Hv].
Qed.
End RecordCodecs.

(** ** HTLC entries: one framed record *)

Lemma wf_HTLCEntry_spec (h : HTLCEntry) :
  wf_HTLCEntry h = true ->
  length (RHash h) = 32%nat /\ 0 <= RefundTimeout h < 2 ^ 32
  /\ 0 <= OutputIndex h < 2 ^ 16 /\ 0 <= Amt h < 2 ^ 64.
Proof.
  unfold wf_HTLCEntry, is_hash, is_u32, is_u16, is_u64.
  rewrite !andb_true_iff, Nat.eqb_eq, !Z.leb_le, !Z.ltb_lt. tauto.
Qed.

Lemma length_sparseHashEncoder (v : list Z) :
  length v = 32%nat -> (length (sparseHashEncoder v) <= 32)%nat.
Proof.
  intros Hv. unfold sparseHashEncoder, EBytes32.
  destruct (bytes_Equal v ZeroHash); simpl; lia.
Qed.

Lemma htlcFields_sizes (h : HTLCEntry) :
  wf_HTLCEntry h = true ->
  Forall (fun rec => sizeFunc rec h = Z.of_nat (length (encoder rec h)))
    toTlvStream.
Proof.
  intros Hwf. apply wf_HTLCEntry_spec in Hwf as (Hh & _).
  unfold toTlvStream. repeat constructor. now apply size_SparsePayHash.
Qed.

Lemma htlcFields_decode (h : HTLCEntry) :
  wf_HTLCEntry h = true ->
  Forall (fun f => field_ok f /\ decodesAs toTlvStream f (htlcUpd h f))
    (htlcFields h).
Proof.
  intros Hwf. apply wf_HTLCEntry_spec in Hwf as (Hh & Ht & Hi & Ha).
  pose proof (length_sparseHashEncoder _ Hh) as Hs.
  pose proof (length_WriteVarInt (Amt h)) as Hv.
  unfold htlcFields, toTlvStream, field_ok, decodesAs.
  cbv [map fieldOf typ encoder wtyp wval getRecord find Z.eqb Pos.eqb
       SparsePayHash_Record MakeUint32Record MakeUint16Record MakeBoolRecord
       MakeBigSizeRecord MakeStaticRecord MakeDynamicRecord load pRHash
       pRefundTimeout pOutputIndex pIncoming pAmt].
  repeat constructor; try lia.
  - intros rest s. apply (decoder_SparsePayHash 0 pRHash _ rest s Hh).
  - intros rest s. apply (decoder_Uint32 1 pRefundTimeout _ rest s Ht).
  - intros rest s. apply (decoder_Uint16 2 pOutputIndex _ rest s Hi).
  - intros rest s. apply (decoder_Bool 3 pIncoming).
  - intros rest s. apply (decoder_BigSize 4 pAmt _ rest s Ha).
Qed.

Lemma length_encodeField (f : wfield) :
  (length (encodeField f) <= 18 + length (wval f))%nat.
Proof.
  unfold encodeField. rewrite !length_app.
  pose proof (length_WriteVarInt (wtyp f)).
  pose proof (length_WriteVarInt (Z.of_nat (length (wval f)))). lia.
Qed.

Lemma length_encodeFields_le (fs : list wfield) (n : nat) :
  Forall (fun f => (length (wval f) <= n)%nat) fs ->
  (length (encodeFields fs) <= length fs * (18 + n))%nat.
Proof.
  induction 1 as [|f fs Hf _ IH]; [simpl; lia|].
  change (encodeFields (f :: fs)) with (encodeField f ++ encodeFields fs).
  rewrite length_app. pose proof (length_encodeField f). simpl length. lia.
Qed.

Lemma length_htlcFields (h : HTLCEntry) :
  wf_HTLCEntry h = true ->
  (length (encodeFields (htlcFields h)) <= 250)%nat.
Proof.
  intros Hwf. apply wf_HTLCEntry_spec in Hwf as (Hh & _).
  pose proof (length_sparseHashEncoder _ Hh) as Hs.
  pose proof (length_WriteVarInt (Amt h)) as Hv.
  apply (length_encodeFields_le (htlcFields h) 32).
  unfold htlcFields, toTlvStream.
  cbv [map fieldOf typ encoder wtyp wval SparsePayHash_Record MakeUint32Record
       MakeUint16Record MakeBoolRecord MakeBigSizeRecord MakeStaticRecord
       MakeDynamicRecord load pRHash pRefundTimeout pOutputIndex pIncoming pAmt].
  repeat match goal with
         | |- Forall _ (_ :: _) => apply List.Forall_cons
         | |- Forall _ [] => apply List.Forall_nil
         end;
    unfold EUint32, EUint16, EBool; rewrite ?length_be_bytes; simpl; lia.
Qed.

Lemma applyFields_htlcFields (h : HTLCEntry) :
  applyFields (htlcUpd h) zeroHTLCEntry (htlcFields h) = h.
Proof.
  destruct h as [hash t i inc a].
  unfold applyFields, htlcFields, toTlvStream, htlcUpd. simpl.
  destruct (bytes_Equal hash ZeroHash) eqn:E; [|reflexivity].
  apply bytes_Equal_eq in E. now subst.
Qed.

(** One framed entry is read back, and the reader is left behind it. *)
Lemma readTlvStream_entry (h : HTLCEntry) (rest : list Z) :
  wf_HTLCEntry h = true ->
  readTlvStream (writeTlvStream toTlvStream h ++ rest) toTlvStream zeroHTLCEntry
  = Ok (h, foldl (noteField toTlvStream) ∅ (htlcFields h), rest).
Proof.
  intros Hwf. unfold writeTlvStream.
  rewrite (Encode_fields toTlvStream h (htlcFields_sizes h Hwf)).
  fold (htlcFields h). rewrite <- app_assoc.
  rewrite (readTlvStream_fields toTlvStream (htlcUpd h))
    by (try apply htlcFields_decode, Hwf; pose proof (length_htlcFields h Hwf); lia).
  now rewrite applyFields_htlcFields.
Qed.

Lemma readTlvStream_nil {S : Type} (st : Stream S) (s : S) :
  readTlvStream [] st s = Err ErrUnexpectedEOF.
Proof. reflexivity. Qed.

(** The loop reads the entries written one after the other, and stops without
    an error where the read of an entry returns [io.ErrUnexpectedEOF]. *)
Lemma deserializeHTLCEntriesLoop_serialize (hs acc : list HTLCEntry)
    (tail : list Z) (fuel : nat) :
  forallb wf_HTLCEntry hs = true ->
  readTlvStream tail toTlvStream zeroHTLCEntry = Err ErrUnexpectedEOF ->
  (length hs < fuel)%nat ->
  deserializeHTLCEntriesLoop fuel (serializeHTLCEntries hs ++ tail) acc
  = Ok (acc ++ hs).
Proof.
  revert acc fuel. induction hs as [|h hs IH]; intros acc fuel Hwf Htail Hfuel.
  - destruct fuel; [simpl in Hfuel; lia|].
    cbn [serializeHTLCEntries map concat app deserializeHTLCEntriesLoop].
    now rewrite Htail, app_nil_r.
  - destruct fuel as [|fuel]; [simpl in Hfuel; lia|].
    cbn [forallb] in Hwf. apply andb_true_iff in Hwf as [Hh Hhs].
    unfold serializeHTLCEntries. cbn [map concat deserializeHTLCEntriesLoop].
    rewrite <- app_assoc. rewrite readTlvStream_entry by exact Hh.
    fold (serializeHTLCEntries hs).
    rewrite IH by (simpl in Hfuel; auto; lia).
    now rewrite <- app_assoc.
Qed.

Lemma length_serializeHTLCEntries (hs : list HTLCEntry) :
  (length hs <= length (serializeHTLCEntries hs))%nat.
Proof.
  unfold serializeHTLCEntries. induction hs as [|h hs IH]; [simpl; lia|].
  cbn [map concat length]. rewrite length_app. unfold writeTlvStream at 1.
  rewrite length_app. pose proof (length_WriteVarInt (Z.of_nat (length (Encode toTlvStream h)))).
  lia.
Qed.

(** The list of entries is read back, up to the end of the input. *)
Lemma deserializeHTLCEntries_serialize (hs : list HTLCEntry) :
  forallb wf_HTLCEntry hs = true ->
  deserializeHTLCEntries (serializeHTLCEntries hs) = Ok hs.
Proof.
  intros Hwf. unfold deserializeHTLCEntries.
  rewrite <- (app_nil_r (serializeHTLCEntries hs)) at 2.
  apply (deserializeHTLCEntriesLoop_serialize hs [] []); [exact Hwf|reflexivity|].
  pose proof (length_serializeHTLCEntries hs). lia.
Qed.



(** ** The revocation log: header and entries *)

Lemma serializeRevocationLog_eq (l : RevocationLog) :
  serializeRevocationLog l
  = writeTlvStream (headerRecords l) (headerVarsOf l)
    ++ serializeHTLCEntries (HTLCEntries l).
Proof.
  unfold serializeRevocationLog, headerRecords, headerVarsOf.
  destruct l as [o t c hs [ob|] [tb|]]; reflexivity.
Qed.

Lemma wf_RevocationLog_spec (l : RevocationLog) :
  wf_RevocationLog l = true ->
  0 <= OurOutputIndex l < 2 ^ 16 /\ 0 <= TheirOutputIndex l < 2 ^ 16
  /\ length (CommitTxHash l) = 32%nat
  /\ forallb wf_HTLCEntry (HTLCEntries l) = true
  /\ 0 <= default 0 (OurBalance l) < 2 ^ 64
  /\ 0 <= default 0 (TheirBalance l) < 2 ^ 64.
Proof.
  unfold wf_RevocationLog, wf_balance, is_hash, is_u16, is_u64.
  rewrite !andb_true_iff, Nat.eqb_eq, !Z.leb_le, !Z.ltb_lt.
  intros (((((Ho & Ht) & Hc & _) & Hh) & Hob) & Htb).
  repeat split; try tauto.
  all: try (destruct (OurBalance l); simpl; [apply andb_true_iff in Hob;
    rewrite Z.leb_le, Z.ltb_lt in Hob|]; lia).
  all: destruct (TheirBalance l); simpl; [apply andb_true_iff in Htb;
    rewrite Z.leb_le, Z.ltb_lt in Htb|]; lia.
Qed.


Lemma headerFields_sizes (l : RevocationLog) :
  wf_RevocationLog l = true ->
  Forall (fun rec => sizeFunc rec (headerVarsOf l)
                     = Z.of_nat (length (encoder rec (headerVarsOf l))))
    (headerRecords l).
Proof.
  intros Hwf. apply wf_RevocationLog_spec in Hwf as (_ & _ & Hc & _).
  destruct l as [o t c hs [ob|] [tb|]]; simpl in Hc; unfold_header;
    repeat constructor; unfold EBytes32; now rewrite Hc.
Qed.

Lemma headerFields_decode (l : RevocationLog) :
  wf_RevocationLog l = true ->
  Forall (fun f => field_ok f /\ decodesAs headerStream f (headerUpd l f))
    (headerFields l).
Proof.
  intros Hwf. apply wf_RevocationLog_spec in Hwf as (Ho & Ht & Hc & _ & Hob & Htb).
  destruct l as [o t c hs ob tb]. simpl in Ho, Ht, Hc, Hob, Htb.
  pose proof (length_WriteVarInt (default 0 ob)) as Hvo.
  pose proof (length_WriteVarInt (default 0 tb)) as Hvt.
  assert (H0 : forall rest s,
    decoder (MakeUint16Record 0 pOurOutputIndex) (EUint16 o ++ rest)
      (Z.of_nat (length (EUint16 o))) s = Ok (store pOurOutputIndex o s, rest))
    by (intros; now apply decoder_Uint16).
  assert (H1 : forall rest s,
    decoder (MakeUint16Record 1 pTheirOutputIndex) (EUint16 t ++ rest)
      (Z.of_nat (length (EUint16 t))) s = Ok (store pTheirOutputIndex t s, rest))
    by (intros; now apply decoder_Uint16).
  assert (H2 : forall rest s,
    decoder (MakeBytes32Record 2 pCommitTxHash) (EBytes32 c ++ rest)
      (Z.of_nat (length (EBytes32 c))) s = Ok (store pCommitTxHash c s, rest))
    by (intros; now apply decoder_Bytes32).
  assert (H3 : forall rest s,
    decoder (MakeBigSizeRecord 3 pOurBalanceVar) (WriteVarInt (default 0 ob) ++ rest)
      (Z.of_nat (length (WriteVarInt (default 0 ob)))) s
    = Ok (store pOurBalanceVar (default 0 ob) s, rest))
    by (intros; now apply decoder_BigSize).
  assert (H4 : forall rest s,
    decoder (MakeBigSizeRecord 4 pTheirBalanceVar) (WriteVarInt (default 0 tb) ++ rest)
      (Z.of_nat (length (WriteVarInt (default 0 tb)))) s
    = Ok (store pTheirBalanceVar (default 0 tb) s, rest))
    by (intros; now apply decoder_BigSize).
  unfold field_ok, decodesAs.
  destruct ob as [ob|], tb as [tb|]; unfold_header;
    cbv [default from_option id] in Hvo, Hvt;
    repeat match goal with
           | |- Forall _ (_ :: _) => apply List.Forall_cons
           | |- Forall _ [] => apply List.Forall_nil
           | |- _ /\ _ => split
           end;
    try lia; try assumption;
    try (unfold EUint16, EBytes32; rewrite ?length_be_bytes, ?Hc; simpl; lia).
Qed.

Lemma length_headerFields (l : RevocationLog) :
  wf_RevocationLog l = true ->
  (length (encodeFields (headerFields l)) <= 250)%nat.
Proof.
  intros Hwf. apply wf_RevocationLog_spec in Hwf as (_ & _ & Hc & _).
  destruct l as [o t c hs ob tb]. simpl in Hc.
  pose proof (length_WriteVarInt (default 0 ob)) as Hvo.
  pose proof (length_WriteVarInt (default 0 tb)) as Hvt.
  assert (Hlen : (length (headerFields (MakeRevocationLog o t c hs ob tb)) <= 5)%nat)
    by (destruct ob, tb; simpl; lia).
  pose proof (length_encodeFields_le
                (headerFields (MakeRevocationLog o t c hs ob tb)) 32) as Hle.
  cut (Forall (fun f => (length (wval f) <= 32)%nat)
         (headerFields (MakeRevocationLog o t c hs ob tb))); [intros HF; specialize (Hle HF); nia|].
  clear Hle Hlen.
  destruct ob as [ob|], tb as [tb|]; unfold_header;
    cbv [default from_option id] in Hvo, Hvt;
    repeat match goal with
           | |- Forall _ (_ :: _) => apply List.Forall_cons
           | |- Forall _ [] => apply List.Forall_nil
           end;
    unfold EUint16, EBytes32; rewrite ?length_be_bytes, ?Hc; lia.
Qed.

Lemma applyFields_headerFields (l : RevocationLog) :
  rl (applyFields (headerUpd l) (MakeHeaderVars zeroRevocationLog 0 0)
        (headerFields l))
  = MakeRevocationLog (OurOutputIndex l) (TheirOutputIndex l) (CommitTxHash l)
      [] None None
  /\ (forall b, OurBalance l = Some b ->
        ourBalance (applyFields (headerUpd l)
                      (MakeHeaderVars zeroRevocationLog 0 0) (headerFields l)) = b)
  /\ (forall b, TheirBalance l = Some b ->
        theirBalance (applyFields (headerUpd l)
                        (MakeHeaderVars zeroRevocationLog 0 0) (headerFields l)) = b).
Proof.
  destruct l as [o t c hs [ob|] [tb|]]; repeat split; intros; simplify_eq/=;
    reflexivity.
Qed.

(** The header and the entries of a well-formed log are read back. *)
Lemma deserialize_serialize (l : RevocationLog) :
  wf_RevocationLog l = true ->
  deserializeRevocationLog (serializeRevocationLog l) = Ok l.
Proof.
  intros Hwf. rewrite serializeRevocationLog_eq. unfold writeTlvStream.
  rewrite (Encode_fields (headerRecords l) _ (headerFields_sizes l Hwf)).
  fold (headerFields l). rewrite <- app_assoc.
  unfold deserializeRevocationLog.
  rewrite (readTlvStream_fields headerStream (headerUpd l))
    by (try apply headerFields_decode, Hwf;
        pose proof (length_headerFields l Hwf); lia).
  unfold mbind, result_bind.
  rewrite !lookup_noteFields by (eexists; reflexivity).
  pose proof (wf_RevocationLog_spec l Hwf) as (_ & _ & _ & Hhs & _).
  rewrite (deserializeHTLCEntries_serialize _ Hhs).
  destruct (applyFields_headerFields l) as (-> & Hob & Htb).
  destruct l as [o t c hs [ob|] [tb|]]; cbn [OurBalance TheirBalance] in Hob, Htb;
    rewrite ?(Hob _ eq_refl), ?(Htb _ eq_refl); reflexivity.
Qed.

(** ** Invariants of the decoding loop *)

Section LoopInvariants.
Context {S : Type} (st : Stream S).

(** A type the stream knows is never mapped to raw bytes. *)
Lemma decodeLoop_known (t : Z) (fuel : nat) :
  is_Some (getRecord st t) ->
  forall r s (pt : TypeMap) s' pt' r',
  decodeLoop fuel st r s pt = Ok (s', pt', r') ->
  pt !! t = None \/ pt !! t = Some None ->
  pt' !! t = None \/ pt' !! t = Some None.
Proof.
  intros Hk. induction fuel as [|fuel IH]; intros r s pt s' pt' r' H Hpt;
    [discriminate|].
  cbn [decodeLoop] in H.
  destruct (ReadVarInt r) as [[t0 r1]|e].
  2: { destruct e; try discriminate. injection H as <- <- <-. exact Hpt. }
  destruct (ReadVarInt r1) as [[len r2]|e]; [|destruct e; discriminate].
  destruct (getRecord st t0) as [rec|] eqn:Hrec.
  - destruct (decoder rec r2 len s) as [[s1 r3]|e]; [|destruct e; discriminate].
    apply IH in H; [exact H|]. destruct (decide (t0 = t)) as [->|Hne].
    + right. apply lookup_insert_eq.
    + rewrite lookup_insert_ne by exact Hne. exact Hpt.
  - destruct (_ <? _)%nat; [discriminate|]. apply IH in H; [exact H|].
    assert (t0 <> t) by (intros ->; destruct Hk as [? Hk]; congruence).
    rewrite lookup_insert_ne; auto.
Qed.

(** A property of the decoded value that every decoder of the stream keeps
    holds at the end of the loop. *)
Lemma decodeLoop_invariant (P : S -> Prop) (fuel : nat) :
  (forall t rec r l s s' r', getRecord st t = Some rec -> P s ->
     decoder rec r l s = Ok (s', r') -> P s') ->
  forall r s (pt : TypeMap) s' pt' r',
  decodeLoop fuel st r s pt = Ok (s', pt', r') -> P s -> P s'.
Proof.
  intros Hdec. induction fuel as [|fuel IH]; intros r s pt s' pt' r' H HP;
    [discriminate|].
  cbn [decodeLoop] in H.
  destruct (ReadVarInt r) as [[t0 r1]|e].
  2: { destruct e; try discriminate. injection H as <- <- <-. exact HP. }
  destruct (ReadVarInt r1) as [[len r2]|e]; [|destruct e; discriminate].
  destruct (getRecord st t0) as [rec|] eqn:Hrec.
  - destruct (decoder rec r2 len s) as [[s1 r3]|e] eqn:Hd;
      [|destruct e; discriminate].
    apply IH in H; [exact H|]. eapply Hdec; eauto.
  - destruct (_ <? _)%nat; [discriminate|]. apply IH in H; auto.
Qed.
End LoopInvariants.

Lemma readTlvStream_inv {S : Type} (st : Stream S) (r : Reader) (s : S)
    (s' : S) (pt : TypeMap) (r' : Reader) :
  readTlvStream r st s = Ok (s', pt, r') ->
  exists lr lr', decodeLoop (Datatypes.S (length lr)) st lr s ∅ = Ok (s', pt, lr').
Proof.
  unfold readTlvStream. destruct (ReadVarInt r) as [[n r1]|e];
    [|destruct e; discriminate].
  unfold DecodeWithParsedTypes, mbind, result_bind.
  destruct (decodeLoop _ _ _ _ _) as [[[s1 pt1] lr1]|e] eqn:E; [|discriminate].
  intros [= <- <- <-]. eauto.
Qed.

(** The decoders of the header never write the balances of the log itself:
    they are set from the map of parsed types only. *)
Lemma headerStream_keeps_balances (t : Z) (rec : TlvRecord headerVars)
    (r : Reader) (l : Z) (s s' : headerVars) (r' : Reader) :
  getRecord headerStream t = Some rec ->
  OurBalance (rl s) = None /\ TheirBalance (rl s) = None ->
  decoder rec r l s = Ok (s', r') ->
  OurBalance (rl s') = None /\ TheirBalance (rl s') = None.
Proof.
  unfold getRecord, headerStream, mandatoryRecords. cbn [app find typ
    MakeUint16Record MakeBytes32Record MakeBigSizeRecord MakeStaticRecord
    MakeDynamicRecord revLogOurOutputIndexType revLogTheirOutputIndexType
    revLogCommitTxHashType revLogOurBalanceType revLogTheirBalanceType].
  intros Hrec HP.
  repeat match type of Hrec with
         | (if ?c then _ else _) = _ => destruct c
         end; try discriminate; injection Hrec as <-;
    cbv [decoder MakeUint16Record MakeBytes32Record MakeBigSizeRecord
         MakeStaticRecord MakeDynamicRecord mbind result_bind];
    match goal with |- match ?d with _ => _ end = _ -> _ =>
      destruct d as [[a r0]|e]; [|discriminate] end;
    intros [= <- <-]; exact HP.
Qed.

(** The balances of a decoded log come from the map of parsed types. *)
Lemma deserialize_balances (r : Reader) (vars : headerVars) (pt : TypeMap)
    (r' : Reader) (l' : RevocationLog) :
  readTlvStream r headerStream (MakeHeaderVars zeroRevocationLog 0 0)
  = Ok (vars, pt, r') ->
  deserializeRevocationLog r = Ok l' ->
  OurBalance l'
  = (if decide (revLogOurBalanceType ∈ dom pt) then Some (ourBalance vars) else None)
  /\ TheirBalance l'
     = (if decide (revLogTheirBalanceType ∈ dom pt) then Some (theirBalance vars)
        else None).
Proof.
  intros Hread Hdes.
  destruct (readTlvStream_inv _ _ _ _ _ _ Hread) as (lr & lr' & Hloop).
  pose proof (decodeLoop_known headerStream revLogOurBalanceType _
                ltac:(eexists; reflexivity) _ _ _ _ _ _ Hloop
                (or_introl (lookup_empty _))) as H3.
  pose proof (decodeLoop_known headerStream revLogTheirBalanceType _
                ltac:(eexists; reflexivity) _ _ _ _ _ _ Hloop
                (or_introl (lookup_empty _))) as H4.
  pose proof (decodeLoop_invariant headerStream
                (fun s => OurBalance (rl s) = None /\ TheirBalance (rl s) = None) _
                headerStream_keeps_balances _ _ _ _ _ _ Hloop
                (conj eq_refl eq_refl)) as [Ho Ht].
  unfold deserializeRevocationLog in Hdes. rewrite Hread in Hdes.
  unfold mbind, result_bind in Hdes.
  destruct (deserializeHTLCEntries r') as [hs|e]; [|discriminate].
  injection Hdes as <-.
  destruct H3 as [H3|H3], H4 as [H4|H4]; rewrite H3, H4;
    cbn [withHTLCEntries withOurBalance withTheirBalance OurBalance TheirBalance];
    repeat match goal with
           | H : pt !! ?t = None |- context [decide (?t ∈ dom pt)] =>
               rewrite (decide_False (P := t ∈ dom pt))
                 by (rewrite elem_of_dom, H; intros [? ?]; discriminate)
           | H : pt !! ?t = Some _ |- context [decide (?t ∈ dom pt)] =>
               rewrite (decide_True (P := t ∈ dom pt))
                 by (rewrite elem_of_dom, H; eauto)
           end; auto.
Qed.

(** ** Writing a commitment and reading it back *)

Lemma uint16_small (v : Z) : 0 <= v <= MaxUint16 -> uint16 v = v.
Proof. unfold uint16, MaxUint16. intros Hv. apply Z.mod_small. lia. Qed.

Lemma is_u16_uint16 (v : Z) : is_u16 (uint16 v) = true.
Proof.
  unfold is_u16, uint16. pose proof (Z.mod_pos_bound v (2 ^ 16) ltac:(lia)).
  apply andb_true_iff. rewrite Z.leb_le, Z.ltb_lt. lia.
Qed.

Lemma is_u64_uint64 (v : Z) : is_u64 (uint64 v) = true.
Proof.
  unfold is_u64, uint64. pose proof (Z.mod_pos_bound v (2 ^ 64) ltac:(lia)).
  apply andb_true_iff. rewrite Z.leb_le, Z.ltb_lt. lia.
Qed.

Section ChannelProps.
Context {MsgTx : Type} (TxHash : MsgTx -> list Z) (ToSatoshis : Z -> Z).

Lemma appendEntries_spec (htlcs : list HTLC.t) (entries : list HTLCEntry) :
  appendEntries ToSatoshis htlcs entries
  = if existsb (fun h => (0 <=? HTLC.OutputIndex h)
                         && (HTLC.OutputIndex h >? MaxUint16)) htlcs
    then Err ErrOutputIndexTooBig
    else Ok (entries
             ++ map (NewHTLCEntryFromHTLC ToSatoshis)
                  (List.filter (fun h => 0 <=? HTLC.OutputIndex h) htlcs)).
Proof.
  revert entries. induction htlcs as [|h htlcs IH]; intros entries.
  - simpl. now rewrite app_nil_r.
  - cbn [appendEntries existsb List.filter].
    destruct (HTLC.OutputIndex h <? 0) eqn:Hneg.
    + apply Z.ltb_lt in Hneg.
      replace (0 <=? HTLC.OutputIndex h) with false
        by (symmetry; apply Z.leb_gt; lia).
      cbn [andb orb]. apply IH.
    + apply Z.ltb_ge in Hneg.
      replace (0 <=? HTLC.OutputIndex h) with true
        by (symmetry; apply Z.leb_le; lia).
      cbn [andb orb]. destruct (HTLC.OutputIndex h >? MaxUint16); [reflexivity|].
      cbn [orb map]. rewrite IH.
      destruct (existsb _ htlcs); [reflexivity|]. now rewrite <- app_assoc.
Qed.

(** What [putRevocationLog] does, by the indexes it is given. *)
Lemma putRevocationLog_spec (bucket : Bucket) (commit : ChannelCommitment MsgTx)
    (our their : Z) (noAmtData : bool) :
  putRevocationLog TxHash ToSatoshis bucket commit our their noAmtData
  = if indexTooBig commit our their then (bucket, Some ErrOutputIndexTooBig)
    else (<[makeLogKey (CommitHeight commit) :=
              serializeRevocationLog
                (revocationLogOf TxHash ToSatoshis commit our their noAmtData)]>
            bucket, None).
Proof.
  unfold putRevocationLog, indexTooBig, revocationLogOf, Put.
  destruct (our >? MaxUint16); [reflexivity|].
  destruct (their >? MaxUint16); [reflexivity|]. cbn [orb].
  rewrite appendEntries_spec.
  destruct (existsb _ (Htlcs commit)); [reflexivity|].
  destruct noAmtData; reflexivity.
Qed.

Lemma wf_NewHTLCEntryFromHTLC (h : HTLC.t) :
  wf_HTLC h = true -> wf_HTLCEntry (NewHTLCEntryFromHTLC ToSatoshis h) = true.
Proof.
  unfold wf_HTLC, wf_HTLCEntry, NewHTLCEntryFromHTLC.
  cbn [RHash RefundTimeout OutputIndex Amt].
  rewrite !andb_true_iff. intros ((((Hh & Ht) & _) & _) & _).
  now rewrite Hh, Ht, is_u16_uint16, is_u64_uint64.
Qed.

Lemma wf_revocationLogOf (commit : ChannelCommitment MsgTx) (our their : Z)
    (noAmtData : bool) :
  wf_ChannelCommitment TxHash commit = true ->
  wf_RevocationLog (revocationLogOf TxHash ToSatoshis commit our their noAmtData)
  = true.
Proof.
  unfold wf_ChannelCommitment, wf_RevocationLog, revocationLogOf.
  cbn [OurOutputIndex TheirOutputIndex CommitTxHash HTLCEntries OurBalance
       TheirBalance].
  rewrite !andb_true_iff. intros ((((_ & Hl) & Hr) & Hc) & Hh).
  rewrite !is_u16_uint16, Hc. repeat split.
  - apply forallb_forall. intros e He. apply in_map_iff in He as (h & <- & Hin).
    apply filter_In in Hin as [Hin _]. apply wf_NewHTLCEntryFromHTLC.
    rewrite forallb_forall in Hh. now apply Hh.
  - now destruct noAmtData.
  - now destruct noAmtData.
Qed.

(** A commitment that is written is read back at its height. *)
Lemma fetch_put (bucket : Bucket) (commit : ChannelCommitment MsgTx)
    (our their : Z) (noAmtData : bool) :
  wf_ChannelCommitment TxHash commit = true ->
  indexTooBig commit our their = false ->
  fetchRevocationLog
    (putRevocationLog TxHash ToSatoshis bucket commit our their noAmtData).1
    (CommitHeight commit)
  = Ok (revocationLogOf TxHash ToSatoshis commit our their noAmtData).
Proof.
  intros Hwf Hbig. rewrite putRevocationLog_spec, Hbig. cbn [fst].
  unfold fetchRevocationLog, Get. rewrite lookup_insert_eq.
  apply deserialize_serialize, wf_revocationLogOf, Hwf.
Qed.

Lemma indexTooBig_false (commit : ChannelCommitment MsgTx) (our their : Z) :
  indexTooBig commit our their = false ->
  our <= MaxUint16 /\ their <= MaxUint16
  /\ Forall (fun h => HTLC.OutputIndex h <= MaxUint16)
       (List.filter (fun h => 0 <=? HTLC.OutputIndex h) (Htlcs commit)).
Proof.
  unfold indexTooBig. rewrite !orb_false_iff. intros [[Ho Ht] Hh].
  split; [lia|]. split; [lia|].
  apply List.Forall_forall. intros h Hin. apply filter_In in Hin as [Hin Hpos].
  destruct (HTLC.OutputIndex h >? MaxUint16) eqn:E; [|lia].
  exfalso. apply not_true_iff_false in Hh. apply Hh. apply existsb_exists.
  exists h. split; [exact Hin|]. now rewrite Hpos, E.
Qed.

Lemma indexTooBig_withoutDust (commit : ChannelCommitment MsgTx) (our their : Z) :
  indexTooBig (withoutDust commit) our their = indexTooBig commit our their.
Proof.
  unfold indexTooBig, withoutDust. cbn [Htlcs]. f_equal.
  induction (Htlcs commit) as [|h hs IH]; [reflexivity|].
  cbn [List.filter existsb]. destruct (0 <=? HTLC.OutputIndex h) eqn:E.
  - cbn [existsb]. now rewrite E, IH.
  - cbn [andb orb]. exact IH.
Qed.

Lemma filter_filter_same {A : Type} (f : A -> bool) (l : list A) :
  List.filter f (List.filter f l) = List.filter f l.
Proof.
  induction l as [|a l IH]; [reflexivity|]. cbn [List.filter].
  destruct (f a) eqn:E; [cbn [List.filter]; now rewrite E, IH | exact IH].
Qed.
End ChannelProps.

(** ** Fields in any order, and fields of unknown types *)

Lemma applyFields_app {S : Type} (upd : wfield -> S -> S) (s : S)
    (fs gs : list wfield) :
  applyFields upd s (fs ++ gs) = applyFields upd (applyFields upd s fs) gs.
Proof. unfold applyFields. apply foldl_app. Qed.

Lemma applyFields_perm {S : Type} (upd : wfield -> S -> S) :
  (forall f g s, upd f (upd g s) = upd g (upd f s)) ->
  forall fs gs, fs ≡ₚ gs -> forall s, applyFields upd s fs = applyFields upd s gs.
Proof.
  intros Hcomm fs gs Hperm.
  induction Hperm as [|x fs gs _ IH|x y fs|fs gs hs _ IH1 _ IH2]; intros s.
  - reflexivity.
  - unfold applyFields. cbn [foldl]. apply IH.
  - unfold applyFields. cbn [foldl]. now rewrite Hcomm.
  - now rewrite IH1.
Qed.

Lemma applyFields_id {S : Type} (upd : wfield -> S -> S) (s : S)
    (fs : list wfield) :
  Forall (fun f => forall s, upd f s = s) fs -> applyFields upd s fs = s.
Proof.
  induction 1 as [|f fs Hf _ IH]; [reflexivity|].
  unfold applyFields in *. cbn [foldl]. now rewrite Hf.
Qed.



Lemma headerUpd_comm (l : RevocationLog) (f g : wfield) (s : headerVars) :
  headerUpd l f (headerUpd l g s) = headerUpd l g (headerUpd l f s).
Proof.
  unfold headerUpd. destruct s as [[so st sc sh sob stb] ob tb].
  destruct (wtyp f =? 0), (wtyp f =? 1), (wtyp f =? 2), (wtyp f =? 3),
    (wtyp f =? 4), (wtyp g =? 0), (wtyp g =? 1), (wtyp g =? 2), (wtyp g =? 3),
    (wtyp g =? 4); reflexivity.
Qed.

Lemma unknown_field_eqb (f : wfield) :
  unknown_field f ->
  (wtyp f =? 0) = false /\ (wtyp f =? 1) = false /\ (wtyp f =? 2) = false
  /\ (wtyp f =? 3) = false /\ (wtyp f =? 4) = false
  /\ (0 =? wtyp f) = false /\ (1 =? wtyp f) = false /\ (2 =? wtyp f) = false
  /\ (3 =? wtyp f) = false /\ (4 =? wtyp f) = false.
Proof. intros [Ht _]. repeat split; apply Z.eqb_neq; lia. Qed.


Lemma headerUpd_unknown (l : RevocationLog) (f : wfield) (s : headerVars) :
  unknown_field f -> headerUpd l f s = s.
Proof.
  intros Hu. unfold headerUpd. apply unknown_field_eqb in Hu as (-> & -> & -> & -> & -> & _).
  reflexivity.
Qed.


Lemma header_unknown_decodes (l : RevocationLog) (f : wfield) :
  unknown_field f ->
  field_ok f /\ decodesAs headerStream f (headerUpd l f).
Proof.
  intros Hu. split; [destruct Hu; split; lia|].
  unfold decodesAs, getRecord, headerStream, mandatoryRecords.
  cbn [app find typ MakeUint16Record MakeBytes32Record MakeBigSizeRecord
       MakeStaticRecord MakeDynamicRecord revLogOurOutputIndexType
       revLogTheirOutputIndexType revLogCommitTxHashType revLogOurBalanceType
       revLogTheirBalanceType].
  unfold revLogOurOutputIndexType, revLogTheirOutputIndexType,
    revLogCommitTxHashType, revLogOurBalanceType, revLogTheirBalanceType.
  destruct (unknown_field_eqb f Hu) as (_ & _ & _ & _ & _ & -> & -> & -> & -> & ->).
  intros s. now apply headerUpd_unknown.
Qed.


Lemma known_type_permuted (known us fs : list wfield) (t : Z) :
  Forall unknown_field us -> fs ≡ₚ known ++ us -> t <= 4 ->
  t ∈ wtyp <$> fs <-> t ∈ wtyp <$> known.
Proof.
  intros Hus Hperm Ht. rewrite Hperm, fmap_app, elem_of_app.
  split; [intros [H|H]; [exact H|] | now left].
  apply list_elem_of_fmap in H as (f & -> & Hf).
  rewrite List.Forall_forall in Hus. apply list_elem_of_In in Hf.
  destruct (Hus f Hf) as [? _]. lia.
Qed.

Lemma headerFields_types (l : RevocationLog) :
  wtyp <$> headerFields l
  = [0; 1; 2] ++ match OurBalance l with Some _ => [3] | None => [] end
    ++ match TheirBalance l with Some _ => [4] | None => [] end.
Proof. destruct l as [o t c hs [ob|] [tb|]]; reflexivity. Qed.

(** A log is read back from the fields of its header in any order, with
    fields of unknown types among them. *)
Lemma deserialize_permuted (l : RevocationLog) (us fs : list wfield) :
  wf_RevocationLog l = true ->
  Forall unknown_field us ->
  fs ≡ₚ headerFields l ++ us ->
  Z.of_nat (length (encodeFields fs)) < 2 ^ 63 ->
  deserializeRevocationLog
    (frameFields fs ++ serializeHTLCEntries (HTLCEntries l)) = Ok l.
Proof.
  intros Hwf Hus Hperm Hlen. unfold frameFields. rewrite <- app_assoc.
  unfold deserializeRevocationLog.
  rewrite (readTlvStream_fields headerStream (headerUpd l)); [|
    rewrite Hperm; apply Forall_app; split;
      [now apply headerFields_decode
      |eapply Forall_impl; [exact Hus | intros f; apply header_unknown_decodes]]
    | exact Hlen].
  unfold mbind, result_bind.
  rewrite !lookup_noteFields by (eexists; reflexivity).
  pose proof (wf_RevocationLog_spec l Hwf) as (_ & _ & _ & Hhs & _).
  rewrite (deserializeHTLCEntries_serialize _ Hhs).
  rewrite (applyFields_perm (headerUpd l) (headerUpd_comm l) _ _ Hperm).
  rewrite applyFields_app.
  rewrite (applyFields_id (headerUpd l) _ us)
    by (eapply Forall_impl; [exact Hus | intros f Hf s; now apply headerUpd_unknown]).
  pose proof (known_type_permuted _ _ _ revLogOurBalanceType Hus Hperm
                ltac:(unfold revLogOurBalanceType; lia)) as H3.
  pose proof (known_type_permuted _ _ _ revLogTheirBalanceType Hus Hperm
                ltac:(unfold revLogTheirBalanceType; lia)) as H4.
  rewrite headerFields_types in H3, H4.
  destruct (applyFields_headerFields l) as (-> & Hob & Htb).
  destruct l as [o t c hs [ob|] [tb|]]; cbn [OurBalance TheirBalance app] in *;
    rewrite ?(Hob _ eq_refl), ?(Htb _ eq_refl); clear Hob Htb;
    unfold revLogOurBalanceType, revLogTheirBalanceType in *;
    repeat match goal with
           | H : ?t ∈ wtyp <$> fs <-> _ |- context [decide (?t ∈ wtyp <$> fs)] =>
               first [ rewrite (decide_True (P := t ∈ wtyp <$> fs))
                         by (apply H; repeat constructor)
                     | rewrite (decide_False (P := t ∈ wtyp <$> fs))
                         by (rewrite H; rewrite !elem_of_cons, elem_of_nil; lia) ]
           end; reflexivity.
Qed.

(** ** The loop bounds of the model are never reached *)

Lemma readFull_tame (n : nat) (r : Reader) :
  match readFull n r with
  | Ok (_, r') => (length r' <= length r)%nat
  | Err e => e <> ErrFuel
  end.
Proof.
  unfold readFull. destruct n as [|n]; [lia|].
  destruct r as [|b r]; [discriminate|].
  destruct (_ <? _)%nat; [discriminate|]. rewrite length_drop. lia.
Qed.

Lemma ReadVarInt_tame (r : Reader) :
  match ReadVarInt r with
  | Ok (_, r') => (length r' < length r)%nat
  | Err e => e <> ErrFuel
  end.
Proof.
  unfold ReadVarInt. destruct r as [|d r]; [discriminate|].
  destruct (d <? 253); [simpl; lia|].
  match goal with |- context [readFull ?n r] =>
    pose proof (readFull_tame n r) as H; destruct (readFull n r) as [[bs r2]|e] end.
  - simpl. lia.
  - destruct e; congruence.
Qed.

Lemma DFixed_tame (n : nat) (r : Reader) (l : Z) :
  match DFixed n r l with
  | Ok (_, r') => (length r' <= length r)%nat
  | Err e => e <> ErrFuel
  end.
Proof. unfold DFixed. destruct (l =? _); [apply readFull_tame | discriminate]. Qed.

Lemma tame_dynamic {S A : Type} (t : Z) (p : Ptr S A) (size : A -> Z)
    (enc : A -> list Z) (dec : Reader -> A -> Z -> result (A * Reader)) :
  (forall r a l, match dec r a l with
                 | Ok (_, r') => (length r' <= length r)%nat
                 | Err e => e <> ErrFuel
                 end) ->
  tame (MakeDynamicRecord t p size enc dec).
Proof.
  intros Hdec r l s. cbn [MakeDynamicRecord decoder]. unfold mbind, result_bind.
  specialize (Hdec r (load p s) l). now destruct (dec r (load p s) l) as [[a r']|e].
Qed.

Lemma tame_fixed {A : Type} (n : nat) (f : list Z -> A) (r : Reader) (l : Z) :
  match ('(bs, r') ← DFixed n r l; Ok (f bs, r')) with
  | Ok (_, r') => (length r' <= length r)%nat
  | Err e => e <> ErrFuel
  end.
Proof.
  unfold mbind, result_bind. pose proof (DFixed_tame n r l) as H.
  now destruct (DFixed n r l) as [[bs r']|e].
Qed.

Lemma tame_BigSize {S : Type} (t : Z) (p : Ptr S Z) : tame (MakeBigSizeRecord t p).
Proof.
  apply tame_dynamic. intros r a l. unfold DBigSize.
  pose proof (ReadVarInt_tame r) as H. destruct (ReadVarInt r) as [[v r']|e]; [lia|auto].
Qed.

Lemma tame_toTlvStream : Forall tame toTlvStream.
Proof.
  unfold toTlvStream. repeat apply List.Forall_cons; try apply List.Forall_nil.
  - apply tame_dynamic. intros r a l. unfold sparseHashDecoder.
    destruct (l =? 0); [lia|]. apply (tame_fixed 32 (fun bs => bs)).
  - apply tame_dynamic. intros r a l. apply (tame_fixed 4).
  - apply tame_dynamic. intros r a l. apply (tame_fixed 2).
  - apply tame_dynamic. intros r a l. apply (tame_fixed 1).
  - apply tame_BigSize.
Qed.

Lemma tame_headerStream : Forall tame headerStream.
Proof.
  unfold headerStream, mandatoryRecords. cbn [app].
  repeat apply List.Forall_cons; try apply List.Forall_nil;
    try apply tame_BigSize.
  - apply tame_dynamic. intros r a l. apply (tame_fixed 2).
  - apply tame_dynamic. intros r a l. apply (tame_fixed 2).
  - apply tame_dynamic. intros r a l. unfold DBytes32.
    apply DFixed_tame.
Qed.

Section Totality.
Context {S : Type} (st : Stream S) (Hst : Forall tame st).

Lemma getRecord_tame (t : Z) (rec : TlvRecord S) :
  getRecord st t = Some rec -> tame rec.
Proof.
  unfold getRecord. intros H. apply find_some in H as [Hin _].
  rewrite List.Forall_forall in Hst. now apply Hst.
Qed.

Lemma decodeLoop_total (fuel : nat) :
  forall r s (pt : TypeMap), (length r < fuel)%nat ->
  match decodeLoop fuel st r s pt with
  | Ok (_, _, r') => (length r' <= length r)%nat
  | Err e => e <> ErrFuel
  end.
Proof.
  induction fuel as [|fuel IH]; intros r s pt Hfuel; [lia|].
  cbn [decodeLoop].
  pose proof (ReadVarInt_tame r) as H1.
  destruct (ReadVarInt r) as [[t r1]|e]; [|destruct e; congruence || lia].
  pose proof (ReadVarInt_tame r1) as H2.
  destruct (ReadVarInt r1) as [[len r2]|e]; [|destruct e; congruence].
  destruct (getRecord st t) as [rec|] eqn:Hrec.
  - pose proof (getRecord_tame t rec Hrec r2 len s) as H3.
    destruct (decoder rec r2 len s) as [[s1 r3]|e]; [|destruct e; congruence].
    specialize (IH r3 s1 (<[t := None]> pt) ltac:(lia)).
    destruct (decodeLoop fuel st r3 s1 _) as [[[s' pt'] r']|e]; [lia|exact IH].
  - destruct (length r2 <? Z.to_nat len)%nat; [discriminate|].
    specialize (IH (drop (Z.to_nat len) r2) s
                  (<[t := Some (take (Z.to_nat len) r2)]> pt)
                  ltac:(rewrite length_drop; lia)).
    destruct (decodeLoop fuel st _ s _) as [[[s' pt'] r']|e]; [|exact IH].
    rewrite length_drop in IH. lia.
Qed.

Lemma readTlvStream_total (r : Reader) (s : S) :
  match readTlvStream r st s with
  | Ok (_, _, r') => (length r' < length r)%nat
  | Err e => e <> ErrFuel
  end.
Proof.
  unfold readTlvStream. pose proof (ReadVarInt_tame r) as H1.
  destruct (ReadVarInt r) as [[n r1]|e]; [|destruct e; congruence].
  unfold DecodeWithParsedTypes, mbind, result_bind.
  pose proof (decodeLoop_total (Datatypes.S (length (LimitReader r1 (int64 n))))
                (LimitReader r1 (int64 n)) s ∅ ltac:(lia)) as H2.
  destruct (decodeLoop _ st _ s ∅) as [[[s' pt'] lr']|e]; [|exact H2].
  rewrite length_drop. lia.
Qed.
End Totality.

Lemma deserializeHTLCEntriesLoop_total (fuel : nat) :
  forall r acc, (length r < fuel)%nat ->
  deserializeHTLCEntriesLoop fuel r acc <> Err ErrFuel.
Proof.
  induction fuel as [|fuel IH]; intros r acc Hfuel; [lia|].
  cbn [deserializeHTLCEntriesLoop].
  pose proof (readTlvStream_total toTlvStream tame_toTlvStream r zeroHTLCEntry) as H.
  destruct (readTlvStream r toTlvStream zeroHTLCEntry) as [[[h pt] r']|e].
  - apply IH. lia.
  - destruct e; congruence.
Qed.

(** Decoding a log ends within the loop bounds of the model, on every
    input. *)
Lemma deserializeRevocationLog_total (r : Reader) :
  deserializeRevocationLog r <> Err ErrFuel.
Proof.
  unfold deserializeRevocationLog, mbind, result_bind.
  pose proof (readTlvStream_total headerStream tame_headerStream r
                (MakeHeaderVars zeroRevocationLog 0 0)) as H.
  destruct (readTlvStream r headerStream _) as [[[vars pt] r']|e]; [|congruence].
  pose proof (deserializeHTLCEntriesLoop_total (Datatypes.S (length r')) r' []
                ltac:(lia)) as H2.
  unfold deserializeHTLCEntries.
  destruct (deserializeHTLCEntriesLoop _ r' []) as [hs|e]; congruence.
Qed.

(** * The claims *)

(** C1.  Round trip: for every well-formed revocation log [v] (any number of
    HTLC entries, each balance absent or present, also present and zero,
    payment hashes zero or not), deserialising the bytes that
    [serializeRevocationLog] writes for [v] yields [v] itself: the same
    presence of each balance, the same entries in the same order. *)
Theorem C1_roundtrip (v : RevocationLog) :
  wf_RevocationLog v = true ->
  deserializeRevocationLog (serializeRevocationLog v) = Ok v.
Proof.
  intros Hwf. rewrite serializeRevocationLog_eq. unfold writeTlvStream.
  rewrite (Encode_fields (headerRecords v) _ (headerFields_sizes v Hwf)).
  fold (headerFields v). fold (frameFields (headerFields v)).
  apply (deserialize_permuted v [] (headerFields v) Hwf).
  - constructor.
  - now rewrite app_nil_r.
  - pose proof (length_headerFields v Hwf). lia.
Qed.

Lemma C1_roundtrip_witness :
  wf_RevocationLog ex_log = true
  /\ deserializeRevocationLog (serializeRevocationLog ex_log) = Ok ex_log.
Proof. split; [reflexivity | apply (C1_roundtrip ex_log); reflexivity]. Defined.




Section Buckets.
Context {MsgTx : Type}.
Context (deserializeChanCommit : list Z -> result (ChannelCommitment MsgTx)).

(** C3.  Dual-bucket fallback, at every channel bucket and height [h].  When
    the new bucket holds at [h] a record that decodes, that log is returned
    as the first value (the other two nil), whatever the deprecated bucket is
    or holds.  When the new bucket is missing or has nothing at [h] and the
    deprecated bucket holds at [h] a record that decodes, that commitment is
    returned as the second value.  When the record of the new bucket fails to
    decode, with an error other than entry-not-found, that error is returned,
    whatever the deprecated bucket is or holds. *)
Theorem C3_dual_bucket (chanBucket : ChanBucket) (h : Z) :
  (forall lb b l (old : option Bucket),
     chanBucket !! revocationLogBucket = Some lb ->
     lb !! makeLogKey h = Some b ->
     deserializeRevocationLog b = Ok l ->
     fetchRevocationLogCompatible deserializeChanCommit
       (partial_alter (fun _ => old) revocationLogBucketDeprecated chanBucket) h
     = (Some l, None, None))
  /\ (forall ob b c,
        chanBucket !! revocationLogBucket = None
        \/ (exists lb, chanBucket !! revocationLogBucket = Some lb
                       /\ lb !! makeLogKey h = None) ->
        chanBucket !! revocationLogBucketDeprecated = Some ob ->
        ob !! makeLogKey h = Some b ->
        deserializeChanCommit b = Ok c ->
        fetchRevocationLogCompatible deserializeChanCommit chanBucket h
        = (None, Some c, None))
  /\ (forall lb b e (old : option Bucket),
        chanBucket !! revocationLogBucket = Some lb ->
        lb !! makeLogKey h = Some b ->
        deserializeRevocationLog b = Err e ->
        e <> ErrLogEntryNotFound ->
        fetchRevocationLogCompatible deserializeChanCommit
          (partial_alter (fun _ => old) revocationLogBucketDeprecated chanBucket) h
        = (None, None, Some e)).
Proof.
  assert (Hne : revocationLogBucketDeprecated <> revocationLogBucket)
    by discriminate.
  repeat split.
  - intros lb b l old Hlb Hb Hl.
    unfold fetchRevocationLogCompatible, NestedReadBucket, fetchRevocationLog, Get.
    rewrite lookup_partial_alter_ne by exact Hne. now rewrite Hlb, Hb, Hl.
  - intros ob b c Hnew Hob Hb Hc.
    unfold fetchRevocationLogCompatible, NestedReadBucket, fetchRevocationLog,
      fetchOldRevocationLog, Get.
    destruct Hnew as [Hnew | (lb & Hnew & Hlb)]; rewrite Hnew; cbv iota beta zeta;
      rewrite ?Hlb, Hob; cbv iota beta zeta; now rewrite Hb, Hc.
  - intros lb b e old Hlb Hb He Hnf.
    unfold fetchRevocationLogCompatible, NestedReadBucket, fetchRevocationLog, Get.
    rewrite lookup_partial_alter_ne by exact Hne. rewrite Hlb, Hb, He.
    now destruct e.
Qed.

(** C4.  Not-found distinction.  With neither bucket, the fetch fails with
    [ErrNoPastDeltas]; with the new bucket present and the height [h] in
    neither bucket, it fails with [ErrLogEntryNotFound]; the two errors are
    different. *)
Theorem C4_not_found (chanBucket : ChanBucket) (h : Z) :
  (chanBucket !! revocationLogBucket = None ->
   chanBucket !! revocationLogBucketDeprecated = None ->
   fetchRevocationLogCompatible deserializeChanCommit chanBucket h
   = (None, None, Some ErrNoPastDeltas))
  /\ (forall lb,
        chanBucket !! revocationLogBucket = Some lb ->
        lb !! makeLogKey h = None ->
        chanBucket !! revocationLogBucketDeprecated = None
        \/ (exists ob, chanBucket !! revocationLogBucketDeprecated = Some ob
                       /\ ob !! makeLogKey h = None) ->
        fetchRevocationLogCompatible deserializeChanCommit chanBucket h
        = (None, None, Some ErrLogEntryNotFound))
  /\ ErrNoPastDeltas <> ErrLogEntryNotFound.
Proof.
  repeat split; [| |discriminate].
  - intros Hnew Hold. unfold fetchRevocationLogCompatible, NestedReadBucket.
    now rewrite Hnew, Hold.
  - intros lb Hlb Hb Hold.
    unfold fetchRevocationLogCompatible, NestedReadBucket, fetchRevocationLog,
      fetchOldRevocationLog, Get.
    rewrite Hlb. cbv iota beta zeta. rewrite Hb.
    destruct Hold as [Hold | (ob & Hold & Hob)]; rewrite Hold; cbv iota beta zeta;
      rewrite ?Hob; reflexivity.
Qed.
End Buckets.

Lemma C3_dual_bucket_witness :
  fetchRevocationLogCompatible ex_deserializeChanCommit ex_legacy_only 10
  = (None, Some (MakeChannelCommitment 7 0 0 ex_hash []), None)
  /\ fetchRevocationLogCompatible ex_deserializeChanCommit ex_both 10
     = (Some (revocationLogOf ex_TxHash ex_ToSatoshis ex_commit 65535 1 false),
        None, None)
  /\ fetchRevocationLogCompatible ex_deserializeChanCommit ex_corrupt 10
     = (None, None, Some ErrInvalidFieldLength).
Proof.
  split; [|split].
  - apply (proj1 (proj2
      (C3_dual_bucket ex_deserializeChanCommit ex_legacy_only 10))
      {[ makeLogKey 10 := [7] ]} [7]);
      [left | | |]; vm_compute; reflexivity.
  - apply (proj1
      (C3_dual_bucket ex_deserializeChanCommit ex_both 10)
      (putRevocationLog ex_TxHash ex_ToSatoshis ∅ ex_commit 65535 1 false).1
      (serializeRevocationLog
         (revocationLogOf ex_TxHash ex_ToSatoshis ex_commit 65535 1 false)) _
      (Some {[ makeLogKey 10 := [7] ]})); vm_compute; reflexivity.
  - apply (proj2 (proj2
      (C3_dual_bucket ex_deserializeChanCommit ex_corrupt 10))
      {[ makeLogKey 10 := [2; 0; 5] ]} [2; 0; 5] ErrInvalidFieldLength
      (Some {[ makeLogKey 10 := [7] ]}));
      [vm_compute; reflexivity .. | discriminate].
Defined.

Lemma C4_not_found_witness :
  fetchRevocationLogCompatible ex_deserializeChanCommit ∅ 5
  = (None, None, Some ErrNoPastDeltas)
  /\ fetchRevocationLogCompatible ex_deserializeChanCommit ex_both 5
     = (None, None, Some ErrLogEntryNotFound).
Proof.
  split.
  - apply (proj1 (C4_not_found ex_deserializeChanCommit ∅ 5)); reflexivity.
  - apply (proj1 (proj2 (C4_not_found ex_deserializeChanCommit ex_both 5))
      (putRevocationLog ex_TxHash ex_ToSatoshis ∅ ex_commit 65535 1 false).1);
      [vm_compute; reflexivity | vm_compute; reflexivity |].
    right. exists {[ makeLogKey 10 := [7] ]}. split; vm_compute; reflexivity.
Defined.

Section Put.
Context {MsgTx : Type} (TxHash : MsgTx -> list Z) (ToSatoshis : Z -> Z).

(** C5.  Index bound.  [putRevocationLog] returns [ErrOutputIndexTooBig]
    exactly when our index, their index, or the index of an HTLC with a
    non-negative index is over 65535, and the bucket is then as it was.
    Otherwise it returns no error, and the log read back at the height of the
    commitment has the indexes it was given, unchanged: ours, theirs, and
    those of the HTLCs with a non-negative index. *)
Theorem C5_output_index_bound (bucket : Bucket)
    (commit : ChannelCommitment MsgTx) (our their : Z) (noAmtData : bool) :
  wf_ChannelCommitment TxHash commit = true ->
  0 <= our -> 0 <= their ->
  let res := putRevocationLog TxHash ToSatoshis bucket commit our their
               noAmtData in
  (res.2 = Some ErrOutputIndexTooBig <-> indexTooBig commit our their = true)
  /\ (indexTooBig commit our their = true -> res.1 = bucket)
  /\ (indexTooBig commit our their = false ->
      res.2 = None
      /\ exists l,
           fetchRevocationLog res.1 (CommitHeight commit) = Ok l
           /\ OurOutputIndex l = our /\ TheirOutputIndex l = their
           /\ map OutputIndex (HTLCEntries l)
              = map HTLC.OutputIndex
                  (List.filter (fun h => 0 <=? HTLC.OutputIndex h)
                     (Htlcs commit))).
Proof.
  intros Hwf Hour Htheir res. subst res. split; [|split].
  - rewrite putRevocationLog_spec.
    destruct (indexTooBig commit our their); cbn [snd]; split; congruence.
  - intros Hbig. now rewrite putRevocationLog_spec, Hbig.
  - intros Hbig. split; [now rewrite putRevocationLog_spec, Hbig|].
    eexists. split; [now apply fetch_put|].
    apply indexTooBig_false in Hbig as (Ho & Ht & Hh).
    unfold revocationLogOf.
    cbn [OurOutputIndex TheirOutputIndex HTLCEntries].
    rewrite !uint16_small by lia. repeat split.
    rewrite map_map. apply map_ext_in. intros h Hin.
    rewrite List.Forall_forall in Hh. specialize (Hh h Hin).
    apply filter_In in Hin as [_ Hpos]. unfold NewHTLCEntryFromHTLC.
    cbn [OutputIndex]. apply uint16_small. lia.
Qed.
End Put.

Lemma C5_output_index_bound_witness :
  (putRevocationLog ex_TxHash ex_ToSatoshis ∅ ex_commit 65536 1 false).2
  = Some ErrOutputIndexTooBig
  /\ (putRevocationLog ex_TxHash ex_ToSatoshis ∅ ex_commit 65535 1 false).2
     = None
  /\ exists l,
       fetchRevocationLog
         (putRevocationLog ex_TxHash ex_ToSatoshis ∅ ex_commit 65535 1 false).1 10
       = Ok l
       /\ OurOutputIndex l = 65535 /\ TheirOutputIndex l = 1
       /\ map OutputIndex (HTLCEntries l) = [65535; 0].
Proof.
  split.
  - apply (proj1 (C5_output_index_bound ex_TxHash ex_ToSatoshis ∅ ex_commit
                    65536 1 false eq_refl ltac:(lia) ltac:(lia))).
    reflexivity.
  - apply (proj2 (proj2 (C5_output_index_bound ex_TxHash ex_ToSatoshis ∅
                           ex_commit 65535 1 false eq_refl ltac:(lia) ltac:(lia)))).
    reflexivity.
Defined.

(** C6.  Balance optionality.  For a well-formed log [l], a balance that is
    nil when [l] is serialised is nil in the log read back, and a balance
    that is present and zero is present and zero in the log read back.  On
    any input [r], the balances of the decoded log are given by the map of
    parsed types alone: present, with the value of the local variable, when
    the type of the balance is in the map, and absent otherwise, whatever the
    value of the variable. *)
Theorem C6_balance_presence (l : RevocationLog) (r : Reader) :
  wf_RevocationLog l = true ->
  (exists l', deserializeRevocationLog (serializeRevocationLog l) = Ok l'
     /\ (OurBalance l = None -> OurBalance l' = None)
     /\ (OurBalance l = Some 0 -> OurBalance l' = Some 0)
     /\ (TheirBalance l = None -> TheirBalance l' = None)
     /\ (TheirBalance l = Some 0 -> TheirBalance l' = Some 0))
  /\ (forall vars (pt : TypeMap) r' l',
        readTlvStream r headerStream (MakeHeaderVars zeroRevocationLog 0 0)
        = Ok (vars, pt, r') ->
        deserializeRevocationLog r = Ok l' ->
        OurBalance l'
        = (if decide (revLogOurBalanceType ∈ dom pt)
           then Some (ourBalance vars) else None)
        /\ TheirBalance l'
           = (if decide (revLogTheirBalanceType ∈ dom pt)
              then Some (theirBalance vars) else None)).
Proof.
  intros Hwf. split.
  - exists l. rewrite deserialize_serialize by exact Hwf. tauto.
  - intros vars pt r' l'. apply deserialize_balances.
Qed.

Lemma C6_balance_presence_witness :
  wf_RevocationLog ex_log = true
  /\ exists l', deserializeRevocationLog (serializeRevocationLog ex_log) = Ok l'
       /\ OurBalance l' = Some 0 /\ TheirBalance l' = None.
Proof.
  split; [reflexivity|].
  destruct (C6_balance_presence ex_log [] eq_refl)
    as [(l' & Hl' & _ & Ho & Ht & _) _].
  exists l'. split; [exact Hl'|]. split; [apply Ho | apply Ht]; reflexivity.
Defined.

(** C7.  The sparse hash decoder at a declared length that is neither 0 nor
    32.  It gives [DBytes32] the constant 32 and not the declared length, so
    it never returns the invalid-length error: at the declared length 5 it
    reads 32 bytes, and a framed entry whose hash field declares 5 bytes is
    decoded with the 32 bytes that follow as its hash. *)
Theorem C7_sparse_hash_length :
  (forall r v l, sparseHashDecoder r v l <> Err ErrInvalidFieldLength)
  /\ sparseHashDecoder (repeat 1 32 ++ [9]) ZeroHash 5 = Ok (repeat 1 32, [9])
  /\ readTlvStream ([34; 0; 5] ++ repeat 1 32) toTlvStream zeroHTLCEntry
     = Ok (MakeHTLCEntry (repeat 1 32) 0 0 false 0, {[0 := None]}, []).
Proof.
  split; [|split; vm_compute; reflexivity].
  intros r v l. unfold sparseHashDecoder, DBytes32, DFixed, readFull.
  destruct (l =? 0); [discriminate|]. cbn [Z.of_nat Z.eqb Pos.of_succ_nat].
  change (32 =? Z.of_nat 32) with true. cbv iota.
  destruct r as [|b r]; [discriminate|].
  unfold mbind, result_bind. destruct (_ <? _)%nat; discriminate.
Qed.



(** C9.  [deleteLogBucket] returns no error and leaves the channel bucket
    without the new and without the deprecated bucket, whichever of them
    existed, and with its other nested buckets as they were; a second call
    returns no error either and changes nothing. *)
Theorem C9_delete_idempotent (chanBucket : ChanBucket) :
  deleteLogBucket chanBucket
  = (delete revocationLogBucketDeprecated (delete revocationLogBucket chanBucket),
     None)
  /\ (deleteLogBucket chanBucket).1 !! revocationLogBucket = None
  /\ (deleteLogBucket chanBucket).1 !! revocationLogBucketDeprecated = None
  /\ (forall name, name <> revocationLogBucket ->
        name <> revocationLogBucketDeprecated ->
        (deleteLogBucket chanBucket).1 !! name = chanBucket !! name)
  /\ deleteLogBucket (deleteLogBucket chanBucket).1
     = ((deleteLogBucket chanBucket).1, None).
Proof.
  assert (Hne : revocationLogBucketDeprecated <> revocationLogBucket)
    by discriminate.
  assert (H : deleteLogBucket chanBucket
              = (delete revocationLogBucketDeprecated
                   (delete revocationLogBucket chanBucket), None)).
  { unfold deleteLogBucket, NestedReadWriteBucket, DeleteNestedBucket.
    destruct (chanBucket !! revocationLogBucket) eqn:Hnew.
    - destruct (delete revocationLogBucket chanBucket
                  !! revocationLogBucketDeprecated) eqn:Hold; [reflexivity|].
      now rewrite (delete_id _ _ Hold).
    - rewrite (delete_id _ _ Hnew).
      destruct (chanBucket !! revocationLogBucketDeprecated) eqn:Hold;
        [reflexivity|]. now rewrite (delete_id _ _ Hold). }
  split; [exact H|]. rewrite H. cbn [fst].
  split; [now rewrite lookup_delete_ne, lookup_delete_eq|].
  split; [apply lookup_delete_eq|].
  split; [intros name H1 H2; now rewrite !lookup_delete_ne|].
  unfold deleteLogBucket, NestedReadWriteBucket.
  rewrite lookup_delete_ne, lookup_delete_eq by exact Hne.
  now rewrite lookup_delete_eq.
Qed.

Section Dust.
Context {MsgTx : Type} (TxHash : MsgTx -> list Z) (ToSatoshis : Z -> Z).

(** C10.  Dust HTLCs.  An HTLC with a negative output index changes nothing
    to what [putRevocationLog] does: the result is that of the commitment
    without its dust HTLCs.  When the call returns no error, the entries of
    the log read back are those of the HTLCs with a non-negative index, in
    the order of the commitment. *)
Theorem C10_dust_skipped (bucket : Bucket) (commit : ChannelCommitment MsgTx)
    (our their : Z) (noAmtData : bool) :
  wf_ChannelCommitment TxHash commit = true ->
  let res := putRevocationLog TxHash ToSatoshis bucket commit our their
               noAmtData in
  res = putRevocationLog TxHash ToSatoshis bucket (withoutDust commit) our
          their noAmtData
  /\ (res.2 = None ->
      exists l,
        fetchRevocationLog res.1 (CommitHeight commit) = Ok l
        /\ HTLCEntries l
           = map (NewHTLCEntryFromHTLC ToSatoshis)
               (List.filter (fun h => 0 <=? HTLC.OutputIndex h) (Htlcs commit))).
Proof.
  intros Hwf res. subst res. split.
  - rewrite !putRevocationLog_spec, indexTooBig_withoutDust.
    unfold revocationLogOf, withoutDust.
    cbn [CommitHeight LocalBalance RemoteBalance CommitTx Htlcs].
    now rewrite filter_filter_same.
  - intros Hok.
    assert (Hbig : indexTooBig commit our their = false).
    { rewrite putRevocationLog_spec in Hok.
      destruct (indexTooBig commit our their); [discriminate | reflexivity]. }
    exists (revocationLogOf TxHash ToSatoshis commit our their noAmtData).
    split; [now apply fetch_put | reflexivity].
Qed.
End Dust.

Lemma C10_dust_skipped_witness :
  exists l,
    fetchRevocationLog
      (putRevocationLog ex_TxHash ex_ToSatoshis ∅ ex_commit 65535 1 false).1 10
    = Ok l
    /\ HTLCEntries l
       = [ MakeHTLCEntry ex_hash 200 65535 false 2;
           MakeHTLCEntry ZeroHash 400 0 true 0 ].
Proof.
  apply (proj2 (C10_dust_skipped ex_TxHash ex_ToSatoshis ∅ ex_commit 65535 1
                  false eq_refl)).
  vm_compute. reflexivity.
Defined.

(** * Further properties *)

(** ** The errors of decoding *)

Lemma readFull_errors (n : nat) (r : Reader) (e : error) :
  readFull n r = Err e -> e = EOF \/ e = ErrUnexpectedEOF.
Proof.
  unfold readFull. destruct n as [|n]; [discriminate|].
  destruct r as [|b r]; [intros [= <-]; now left|].
  destruct (_ <? _)%nat; [intros [= <-]; now right | discriminate].
Qed.

Lemma ReadVarInt_errors (r : Reader) (e : error) :
  ReadVarInt r = Err e -> e = EOF \/ e = ErrUnexpectedEOF.
Proof.
  unfold ReadVarInt. destruct r as [|d r]; [intros [= <-]; now left|].
  destruct (d <? 253); [discriminate|].
  match goal with |- context [readFull ?n r] =>
    pose proof (readFull_errors n r) as H; destruct (readFull n r) as [[bs r2]|e0]
  end; [discriminate|].
  destruct (H e0 eq_refl) as [-> | ->]; intros [= <-]; now right.
Qed.

Lemma DFixed_errors (n : nat) (r : Reader) (l : Z) (e : error) :
  DFixed n r l = Err e ->
  e = EOF \/ e = ErrUnexpectedEOF \/ e = ErrInvalidFieldLength.
Proof.
  unfold DFixed. destruct (l =? _).
  - intros H. apply readFull_errors in H. tauto.
  - intros [= <-]. tauto.
Qed.

Lemma mild_dynamic {S A : Type} (t : Z) (p : Ptr S A) (size : A -> Z)
    (enc : A -> list Z) (dec : Reader -> A -> Z -> result (A * Reader)) :
  (forall r a l e, dec r a l = Err e ->
     e = EOF \/ e = ErrUnexpectedEOF \/ e = ErrInvalidFieldLength) ->
  mild (MakeDynamicRecord t p size enc dec).
Proof.
  intros Hdec r l s e. cbn [MakeDynamicRecord decoder]. unfold mbind, result_bind.
  specialize (Hdec r (load p s) l).
  destruct (dec r (load p s) l) as [[a r']|e0]; [discriminate|].
  intros [= <-]. now apply Hdec.
Qed.

Lemma mild_fixed {A : Type} (n : nat) (f : list Z -> A) (r : Reader) (l : Z)
    (e : error) :
  ('(bs, r') ← DFixed n r l; Ok (f bs, r')) = Err e ->
  e = EOF \/ e = ErrUnexpectedEOF \/ e = ErrInvalidFieldLength.
Proof.
  unfold mbind, result_bind. pose proof (DFixed_errors n r l) as H.
  destruct (DFixed n r l) as [[bs r']|e0]; [discriminate|].
  intros [= <-]. now apply H.
Qed.

Lemma mild_BigSize {S : Type} (t : Z) (p : Ptr S Z) : mild (MakeBigSizeRecord t p).
Proof.
  apply mild_dynamic. intros r a l e. unfold DBigSize. intros H.
  apply ReadVarInt_errors in H. tauto.
Qed.

Lemma mild_toTlvStream : Forall mild toTlvStream.
Proof.
  unfold toTlvStream. repeat apply List.Forall_cons; try apply List.Forall_nil.
  - apply mild_dynamic. intros r a l e. unfold sparseHashDecoder.
    destruct (l =? 0); [discriminate|]. apply (mild_fixed 32 (fun bs => bs)).
  - apply mild_dynamic. intros r a l e. apply (mild_fixed 4).
  - apply mild_dynamic. intros r a l e. apply (mild_fixed 2).
  - apply mild_dynamic. intros r a l e. apply (mild_fixed 1).
  - apply mild_BigSize.
Qed.

Lemma mild_headerStream : Forall mild headerStream.
Proof.
  unfold headerStream, mandatoryRecords. cbn [app].
  repeat apply List.Forall_cons; try apply List.Forall_nil;
    try apply mild_BigSize.
  - apply mild_dynamic. intros r a l e. apply (mild_fixed 2).
  - apply mild_dynamic. intros r a l e. apply (mild_fixed 2).
  - apply mild_dynamic. intros r a l e. unfold DBytes32. apply DFixed_errors.
Qed.

Section DecodeErrors.
Context {S : Type} (st : Stream S).
Context (Htame : Forall tame st) (Hmild : Forall mild st).

Lemma getRecord_mild (t : Z) (rec : TlvRecord S) :
  getRecord st t = Some rec -> mild rec.
Proof.
  unfold getRecord. intros H. apply find_some in H as [Hin _].
  rewrite List.Forall_forall in Hmild. now apply Hmild.
Qed.

Lemma decodeLoop_errors (fuel : nat) :
  forall r s (pt : TypeMap) e,
  decodeLoop fuel st r s pt = Err e ->
  e = ErrUnexpectedEOF \/ e = ErrInvalidFieldLength \/ e = ErrFuel.
Proof.
  induction fuel as [|fuel IH]; intros r s pt e; [intros [= <-]; tauto|].
  cbn [decodeLoop].
  pose proof (ReadVarInt_errors r) as H1.
  destruct (ReadVarInt r) as [[t r1]|e1].
  2: { destruct (H1 e1 eq_refl) as [-> | ->]; [discriminate|].
       intros [= <-]. tauto. }
  pose proof (ReadVarInt_errors r1) as H2.
  destruct (ReadVarInt r1) as [[len r2]|e2].
  2: { destruct (H2 e2 eq_refl) as [-> | ->]; intros [= <-]; tauto. }
  destruct (getRecord st t) as [rec|] eqn:Hrec.
  - pose proof (getRecord_mild t rec Hrec r2 len s) as H3.
    destruct (decoder rec r2 len s) as [[s1 r3]|e3]; [apply IH|].
    destruct (H3 e3 eq_refl) as [-> | [-> | ->]]; intros [= <-]; tauto.
  - destruct (_ <? _)%nat; [intros [= <-]; tauto | apply IH].
Qed.

Lemma readTlvStream_errors (r : Reader) (s : S) (e : error) :
  readTlvStream r st s = Err e ->
  e = ErrUnexpectedEOF \/ e = ErrInvalidFieldLength.
Proof.
  intros H. pose proof (readTlvStream_total st Htame r s) as Htot.
  rewrite H in Htot. revert H. unfold readTlvStream.
  pose proof (ReadVarInt_errors r) as H1.
  destruct (ReadVarInt r) as [[n r1]|e1].
  2: { destruct (H1 e1 eq_refl) as [-> | ->]; intros [= <-]; tauto. }
  unfold DecodeWithParsedTypes, mbind, result_bind.
  destruct (decodeLoop _ st _ s ∅) as [[[s' pt'] lr']|e0] eqn:E; [discriminate|].
  intros [= <-]. apply decodeLoop_errors in E. tauto.
Qed.
End DecodeErrors.

Lemma deserializeHTLCEntriesLoop_errors (fuel : nat) :
  forall r acc e,
  deserializeHTLCEntriesLoop fuel r acc = Err e ->
  e = ErrInvalidFieldLength \/ e = ErrFuel.
Proof.
  induction fuel as [|fuel IH]; intros r acc e; [intros [= <-]; tauto|].
  cbn [deserializeHTLCEntriesLoop].
  pose proof (readTlvStream_errors toTlvStream tame_toTlvStream mild_toTlvStream
                r zeroHTLCEntry) as H.
  destruct (readTlvStream r toTlvStream zeroHTLCEntry) as [[[h pt] r']|e0];
    [apply IH|].
  destruct (H e0 eq_refl) as [-> | ->]; [discriminate | intros [= <-]; tauto].
Qed.

Lemma deserializeHTLCEntries_errors (r : Reader) (e : error) :
  deserializeHTLCEntries r = Err e -> e = ErrInvalidFieldLength.
Proof.
  intros H. unfold deserializeHTLCEntries in H.
  pose proof (deserializeHTLCEntriesLoop_total (Datatypes.S (length r)) r []
                ltac:(lia)) as Htot.
  destruct (deserializeHTLCEntriesLoop_errors _ _ _ _ H) as [-> | ->];
    congruence.
Qed.

Lemma deserializeRevocationLog_errors (r : Reader) (e : error) :
  deserializeRevocationLog r = Err e ->
  e = ErrUnexpectedEOF \/ e = ErrInvalidFieldLength.
Proof.
  unfold deserializeRevocationLog, mbind, result_bind.
  pose proof (readTlvStream_errors headerStream tame_headerStream
                mild_headerStream r (MakeHeaderVars zeroRevocationLog 0 0)) as H.
  destruct (readTlvStream r headerStream _) as [[[vars pt] r']|e0].
  - pose proof (deserializeHTLCEntries_errors r') as H2.
    destruct (deserializeHTLCEntries r') as [hs|e1]; [discriminate|].
    intros [= <-]. right. now apply H2.
  - intros [= <-]. now apply H.
Qed.

(** ** Further properties of the codec and of the buckets *)


(** X2.  [fetchRevocationLog] returns [ErrLogEntryNotFound] exactly when the
    bucket has no value at the key of the height: a value that is there and
    does not decode is never reported as not found. *)
Theorem X2_not_found_iff_absent (log : Bucket) (updateNum : Z) :
  fetchRevocationLog log updateNum = Err ErrLogEntryNotFound
  <-> Get log (makeLogKey updateNum) = None.
Proof.
  unfold fetchRevocationLog. destruct (Get log (makeLogKey updateNum)) as [b|].
  - split; [|discriminate]. intros H.
    apply deserializeRevocationLog_errors in H as [H|H]; discriminate.
  - tauto.
Qed.

Section BucketProperties.
Context {MsgTx : Type}.
Context (deserializeChanCommit : list Z -> result (ChannelCommitment MsgTx)).

(** X3.  When the new bucket holds a value at the height, the deprecated
    bucket is never the source of the result: the commitment returned is
    nil, whether the value decodes or not. *)
Theorem X3_no_fallback_on_corrupt (chanBucket : ChanBucket) (lb : Bucket)
    (b : list Z) (h : Z) :
  chanBucket !! revocationLogBucket = Some lb ->
  lb !! makeLogKey h = Some b ->
  (fetchRevocationLogCompatible deserializeChanCommit chanBucket h).1.2 = None
  /\ fetchRevocationLogCompatible deserializeChanCommit chanBucket h
     = match deserializeRevocationLog b with
       | Ok l => (Some l, None, None)
       | Err e => (None, None, Some e)
       end.
Proof.
  intros Hlb Hb.
  unfold fetchRevocationLogCompatible, NestedReadBucket, fetchRevocationLog, Get.
  rewrite Hlb. cbv iota beta zeta. rewrite Hb.
  pose proof (deserializeRevocationLog_errors b) as H.
  destruct (deserializeRevocationLog b) as [l|e]; [now split|].
  destruct (H e eq_refl) as [-> | ->]; now split.
Qed.

(** X4.  Of the three values [fetchRevocationLogCompatible] returns, exactly
    one is not nil. *)
Theorem X4_one_result (chanBucket : ChanBucket) (h : Z) :
  match fetchRevocationLogCompatible deserializeChanCommit chanBucket h with
  | (Some _, None, None) | (None, Some _, None) | (None, None, Some _) => True
  | _ => False
  end.
Proof.
  unfold fetchRevocationLogCompatible, NestedReadBucket, fetchOldRevocationLog.
  destruct (chanBucket !! revocationLogBucket) as [lb|].
  - destruct (fetchRevocationLog lb h) as [l|e]; [exact I|].
    destruct e; try exact I.
    destruct (chanBucket !! revocationLogBucketDeprecated) as [ob|]; [|exact I].
    destruct (Get ob (makeLogKey h)) as [b|]; [|exact I].
    now destruct (deserializeChanCommit b).
  - destruct (chanBucket !! revocationLogBucketDeprecated) as [ob|]; [|exact I].
    destruct (Get ob (makeLogKey h)) as [b|]; [|exact I].
    now destruct (deserializeChanCommit b).
Qed.

(** X5.  [fetchLogBucket] fails, with [ErrNoPastDeltas], exactly when the
    channel bucket has neither bucket; and, for a decoder of the deprecated
    records that does not itself return [ErrNoPastDeltas], exactly when
    [fetchRevocationLogCompatible] fails with [ErrNoPastDeltas], at any
    height. *)
Theorem X5_fetchLogBucket_agrees (chanBucket : ChanBucket) (h : Z) :
  (forall b, deserializeChanCommit b <> Err ErrNoPastDeltas) ->
  (fetchLogBucket chanBucket = Err ErrNoPastDeltas
   <-> chanBucket !! revocationLogBucket = None
       /\ chanBucket !! revocationLogBucketDeprecated = None)
  /\ (fetchLogBucket chanBucket = Err ErrNoPastDeltas
      <-> (fetchRevocationLogCompatible deserializeChanCommit chanBucket h).2
          = Some ErrNoPastDeltas).
Proof.
  intros Hold.
  unfold fetchLogBucket, fetchRevocationLogCompatible, NestedReadBucket,
    fetchOldRevocationLog.
  destruct (chanBucket !! revocationLogBucket) as [lb|].
  - split; [split; [discriminate | intros [? _]; discriminate]|].
    split; [discriminate|].
    pose proof (Herr := deserializeRevocationLog_errors).
    unfold fetchRevocationLog.
    destruct (Get lb (makeLogKey h)) as [b|].
    + specialize (Herr b).
      destruct (deserializeRevocationLog b) as [l|e]; [discriminate|].
      destruct (Herr e eq_refl) as [-> | ->]; discriminate.
    + destruct (chanBucket !! revocationLogBucketDeprecated) as [ob|];
        [|discriminate].
      destruct (Get ob (makeLogKey h)) as [b|]; [|discriminate].
      specialize (Hold b). destruct (deserializeChanCommit b) as [c|e];
        [discriminate|]. cbn [snd]. congruence.
  - destruct (chanBucket !! revocationLogBucketDeprecated) as [ob|].
    + split; [split; [discriminate | intros [_ ?]; discriminate]|].
      split; [discriminate|].
      destruct (Get ob (makeLogKey h)) as [b|]; [|discriminate].
      specialize (Hold b). destruct (deserializeChanCommit b) as [c|e];
        [discriminate|]. cbn [snd]. congruence.
    + now repeat split.
Qed.

(** X6.  After [deleteLogBucket], [fetchLogBucket] and, at every height,
    [fetchRevocationLogCompatible] fail with [ErrNoPastDeltas]. *)
Theorem X6_fetch_after_delete (chanBucket : ChanBucket) (h : Z) :
  fetchLogBucket (deleteLogBucket chanBucket).1 = Err ErrNoPastDeltas
  /\ fetchRevocationLogCompatible deserializeChanCommit
       (deleteLogBucket chanBucket).1 h
     = (None, None, Some ErrNoPastDeltas).
Proof.
  assert (Hne : revocationLogBucketDeprecated <> revocationLogBucket)
    by discriminate.
  assert (H : (deleteLogBucket chanBucket).1
              = delete revocationLogBucketDeprecated
                  (delete revocationLogBucket chanBucket)).
  { unfold deleteLogBucket, NestedReadWriteBucket, DeleteNestedBucket.
    destruct (chanBucket !! revocationLogBucket) eqn:Hnew.
    - destruct (delete revocationLogBucket chanBucket
                  !! revocationLogBucketDeprecated) eqn:Hold; [reflexivity|].
      cbn [fst]. now rewrite (delete_id _ _ Hold).
    - rewrite (delete_id _ _ Hnew).
      destruct (chanBucket !! revocationLogBucketDeprecated) eqn:Hold;
        [reflexivity|]. cbn [fst]. now rewrite (delete_id _ _ Hold). }
  rewrite H.
  unfold fetchLogBucket, fetchRevocationLogCompatible, NestedReadBucket.
  rewrite lookup_delete_ne, !lookup_delete_eq by exact Hne. now split.
Qed.
End BucketProperties.

Lemma X3_no_fallback_on_corrupt_witness :
  fetchRevocationLogCompatible ex_deserializeChanCommit ex_corrupt 10
  = (None, None, Some ErrInvalidFieldLength).
Proof.
  refine (eq_trans (proj2 (X3_no_fallback_on_corrupt ex_deserializeChanCommit
            ex_corrupt {[ makeLogKey 10 := [2; 0; 5] ]} [2; 0; 5] 10 _ _)) _);
    vm_compute; reflexivity.
Defined.

Lemma X5_fetchLogBucket_agrees_witness :
  fetchLogBucket (∅ : ChanBucket) = Err ErrNoPastDeltas
  <-> (fetchRevocationLogCompatible ex_deserializeChanCommit ∅ 3).2
      = Some ErrNoPastDeltas.
Proof.
  apply (X5_fetchLogBucket_agrees ex_deserializeChanCommit ∅ 3).
  intros [|x b]; discriminate.
Defined.

(** ** Writing at several heights *)

Lemma makeLogKey_inj (a b : Z) :
  0 <= a < 2 ^ 64 -> 0 <= b < 2 ^ 64 -> makeLogKey a = makeLogKey b -> a = b.
Proof.
  intros Ha Hb H. apply (f_equal (fun bs => be_value bs 0)) in H.
  unfold makeLogKey in H. now rewrite !be_roundtrip in H by (simpl; lia).
Qed.

Section PutProperties.
Context {MsgTx : Type} (TxHash : MsgTx -> list Z) (ToSatoshis : Z -> Z).
Context (deserializeChanCommit : list Z -> result (ChannelCommitment MsgTx)).

(** X7.  A commitment written to the new bucket of a channel is returned by
    [fetchRevocationLogCompatible] at its height as a log of the new format,
    whatever the channel bucket holds besides. *)
Theorem X7_put_then_fetch_compatible (chanBucket : ChanBucket) (lb : Bucket)
    (commit : ChannelCommitment MsgTx) (our their : Z) (noAmtData : bool) :
  wf_ChannelCommitment TxHash commit = true ->
  indexTooBig commit our their = false ->
  fetchRevocationLogCompatible deserializeChanCommit
    (<[revocationLogBucket :=
         (putRevocationLog TxHash ToSatoshis lb commit our their noAmtData).1]>
       chanBucket)
    (CommitHeight commit)
  = (Some (revocationLogOf TxHash ToSatoshis commit our their noAmtData),
     None, None).
Proof.
  intros Hwf Hbig. unfold fetchRevocationLogCompatible, NestedReadBucket.
  rewrite lookup_insert_eq. cbv iota beta zeta.
  now rewrite (fetch_put TxHash ToSatoshis lb commit our their noAmtData Hwf Hbig).
Qed.

(** X8.  The log read back after [putRevocationLog] has the hash of the
    commitment transaction, and its balances are those of the commitment,
    present even when zero, unless [noAmtData] is set, in which case both are
    nil. *)
Theorem X8_stored_balances (bucket : Bucket) (commit : ChannelCommitment MsgTx)
    (our their : Z) (noAmtData : bool) :
  wf_ChannelCommitment TxHash commit = true ->
  indexTooBig commit our their = false ->
  exists l,
    fetchRevocationLog
      (putRevocationLog TxHash ToSatoshis bucket commit our their noAmtData).1
      (CommitHeight commit) = Ok l
    /\ CommitTxHash l = TxHash (CommitTx commit)
    /\ OurBalance l = (if noAmtData then None else Some (LocalBalance commit))
    /\ TheirBalance l = (if noAmtData then None else Some (RemoteBalance commit)).
Proof.
  intros Hwf Hbig.
  exists (revocationLogOf TxHash ToSatoshis commit our their noAmtData).
  split; [now apply fetch_put | now repeat split].
Qed.

(** X9.  [putRevocationLog] leaves the records of the other heights as they
    are: at a height other than that of the commitment, the fetch gives what
    it gave before. *)
Theorem X9_put_other_heights (bucket : Bucket) (commit : ChannelCommitment MsgTx)
    (our their : Z) (noAmtData : bool) (h : Z) :
  0 <= CommitHeight commit < 2 ^ 64 -> 0 <= h < 2 ^ 64 ->
  h <> CommitHeight commit ->
  fetchRevocationLog
    (putRevocationLog TxHash ToSatoshis bucket commit our their noAmtData).1 h
  = fetchRevocationLog bucket h.
Proof.
  intros Hc Hh Hne. rewrite putRevocationLog_spec.
  destruct (indexTooBig commit our their); [reflexivity|]. cbn [fst].
  unfold fetchRevocationLog, Get. rewrite lookup_insert_ne; [reflexivity|].
  intros Heq. apply Hne. symmetry. now apply makeLogKey_inj.
Qed.

(** X10.  A record is replaced whole: writing a second commitment at the
    height of a first one leaves the bucket as if the second alone had been
    written. *)
Theorem X10_put_replaces (bucket : Bucket) (c1 c2 : ChannelCommitment MsgTx)
    (our1 their1 our2 their2 : Z) (n1 n2 : bool) :
  CommitHeight c1 = CommitHeight c2 ->
  indexTooBig c2 our2 their2 = false ->
  putRevocationLog TxHash ToSatoshis
    (putRevocationLog TxHash ToSatoshis bucket c1 our1 their1 n1).1
    c2 our2 their2 n2
  = putRevocationLog TxHash ToSatoshis bucket c2 our2 their2 n2.
Proof.
  intros Hh Hbig. rewrite !putRevocationLog_spec, Hbig.
  destruct (indexTooBig c1 our1 their1); [reflexivity|]. cbn [fst].
  now rewrite Hh, insert_insert_eq.
Qed.
End PutProperties.

Lemma X7_put_then_fetch_compatible_witness :
  fetchRevocationLogCompatible ex_deserializeChanCommit ex_both 10
  = (Some (revocationLogOf ex_TxHash ex_ToSatoshis ex_commit 65535 1 false),
     None, None).
Proof.
  apply (X7_put_then_fetch_compatible ex_TxHash ex_ToSatoshis
           ex_deserializeChanCommit ex_legacy_only ∅ ex_commit 65535 1 false);
    reflexivity.
Defined.

Lemma X8_stored_balances_witness :
  exists l,
    fetchRevocationLog
      (putRevocationLog ex_TxHash ex_ToSatoshis ∅ ex_commit2 0 1 false).1 10
    = Ok l
    /\ CommitTxHash l = repeat 9 32
    /\ OurBalance l = Some 1 /\ TheirBalance l = Some 2.
Proof.
  apply (X8_stored_balances ex_TxHash ex_ToSatoshis ∅ ex_commit2 0 1 false);
    reflexivity.
Defined.

Lemma X9_put_other_heights_witness :
  fetchRevocationLog
    (putRevocationLog ex_TxHash ex_ToSatoshis
       (putRevocationLog ex_TxHash ex_ToSatoshis ∅ ex_commit 65535 1 false).1
       ex_commit3 0 0 true).1 10
  = fetchRevocationLog
      (putRevocationLog ex_TxHash ex_ToSatoshis ∅ ex_commit 65535 1 false).1 10.
Proof.
  apply (X9_put_other_heights ex_TxHash ex_ToSatoshis _ ex_commit3 0 0 true 10);
    simpl; lia.
Defined.

Lemma X10_put_replaces_witness :
  putRevocationLog ex_TxHash ex_ToSatoshis
    (putRevocationLog ex_TxHash ex_ToSatoshis ∅ ex_commit 65535 1 false).1
    ex_commit2 0 1 false
  = putRevocationLog ex_TxHash ex_ToSatoshis ∅ ex_commit2 0 1 false.
Proof.
  apply (X10_put_replaces ex_TxHash ex_ToSatoshis ∅ ex_commit ex_commit2
           65535 1 0 1 false false); reflexivity.
Defined.

(** ** Edge cases of the framing *)

(** A declared length of zero, or one that [int64] turns negative, limits the
    reader to nothing: no field is read. *)
Lemma readTlvStream_no_body {S : Type} (st : Stream S) (r r1 : Reader) (n : Z)
    (s : S) :
  ReadVarInt r = Ok (n, r1) ->
  n = 0 \/ 2 ^ 63 <= n < 2 ^ 64 ->
  readTlvStream r st s = Ok (s, ∅, r1).
Proof.
  intros Hr Hn. unfold readTlvStream. rewrite Hr.
  assert (Hlr : LimitReader r1 (int64 n) = []).
  { unfold LimitReader.
    replace (int64 n <=? 0) with true; [reflexivity|].
    symmetry. apply Z.leb_le. unfold int64. destruct Hn as [-> | Hn].
    - rewrite Z.mod_small; lia.
    - replace (n + 2 ^ 63) with (n - 2 ^ 63 + 1 * 2 ^ 64) by lia.
      rewrite Z.mod_add by lia. rewrite Z.mod_small; lia. }
  rewrite Hlr. reflexivity.
Qed.

(** X11.  The length of a framed record is converted to [int64] without a
    check: a declared length of [2^63] or more, like a declared length of
    zero, makes [readTlvStream] read no field at all and succeed, with the
    value decoded into unchanged and the reader just behind the length. *)
Theorem X11_length_overflow (r r1 : Reader) (n : Z) (s : HTLCEntry) :
  ReadVarInt r = Ok (n, r1) ->
  n = 0 \/ 2 ^ 63 <= n < 2 ^ 64 ->
  readTlvStream r toTlvStream s = Ok (s, ∅, r1)
  /\ readTlvStream r headerStream (MakeHeaderVars zeroRevocationLog 0 0)
     = Ok (MakeHeaderVars zeroRevocationLog 0 0, ∅, r1).
Proof.
  intros Hr Hn. split; now apply (readTlvStream_no_body _ r r1 n).
Qed.

Lemma X11_length_overflow_witness :
  readTlvStream [255; 128; 0; 0; 0; 0; 0; 0; 0; 1; 4; 0] toTlvStream
    zeroHTLCEntry
  = Ok (zeroHTLCEntry, ∅, [1; 4; 0]).
Proof.
  apply (X11_length_overflow [255; 128; 0; 0; 0; 0; 0; 0; 0; 1; 4; 0]
           [1; 4; 0] (2 ^ 63) zeroHTLCEntry); [reflexivity | right; lia].
Defined.

Lemma deserializeHTLCEntriesLoop_zeros (k fuel : nat) (acc : list HTLCEntry) :
  (k < fuel)%nat ->
  deserializeHTLCEntriesLoop fuel (repeat 0 k) acc
  = Ok (acc ++ repeat zeroHTLCEntry k).
Proof.
  revert fuel acc. induction k as [|k IH]; intros fuel acc Hfuel.
  - destruct fuel; [lia|]. simpl. now rewrite app_nil_r.
  - destruct fuel as [|fuel]; [lia|]. cbn [repeat deserializeHTLCEntriesLoop].
    rewrite (readTlvStream_no_body toTlvStream (0 :: repeat 0 k) (repeat 0 k) 0)
      by (reflexivity || now left).
    rewrite IH by lia. now rewrite <- app_assoc.
Qed.

(** X12.  Zero bytes in the place of entries are not padding: each byte 0 is
    a record of length zero and is read as an entry with all fields zero. *)
Theorem X12_zero_bytes_are_entries (k : nat) :
  deserializeHTLCEntries (repeat 0 k) = Ok (repeat zeroHTLCEntry k).
Proof.
  unfold deserializeHTLCEntries. rewrite repeat_length.
  now rewrite deserializeHTLCEntriesLoop_zeros by lia.
Qed.

(** ** The sparse hash and the size of an entry *)

(** X13.  The sparse hash codec on a 32-byte hash: the size [hashLen]
    declares is the number of bytes the encoder writes, and decoding these
    bytes with that length into a zero hash gives the hash back, zero or
    not, leaving the reader behind them.  A field of length zero leaves the
    hash decoded into as it is. *)
Theorem X13_sparse_hash_roundtrip (h rest : list Z) :
  length h = 32%nat ->
  hashLen h = Z.of_nat (length (sparseHashEncoder h))
  /\ sparseHashDecoder (sparseHashEncoder h ++ rest) ZeroHash (hashLen h)
     = Ok (h, rest)
  /\ (forall r v, sparseHashDecoder r v 0 = Ok (v, r)).
Proof.
  intros Hh. unfold hashLen, sparseHashEncoder, sparseHashDecoder, EBytes32.
  destruct (bytes_Equal h ZeroHash) eqn:E.
  - apply bytes_Equal_eq in E. subst h. repeat split.
  - rewrite Hh. repeat split. change (32 =? 0) with false. cbv iota.
    unfold DBytes32. change 32 with (Z.of_nat 32).
    now rewrite (DFixed_len 32 h rest Hh).
Qed.

Lemma X13_sparse_hash_roundtrip_witness :
  sparseHashDecoder (sparseHashEncoder ex_hash ++ [7]) ZeroHash (hashLen ex_hash)
  = Ok (ex_hash, [7]).
Proof.
  apply (X13_sparse_hash_roundtrip ex_hash [7]). reflexivity.
Defined.

Lemma WriteVarInt_small (v : Z) : v < 253 -> WriteVarInt v = [v].
Proof. intros Hv. unfold WriteVarInt. now rewrite (proj2 (Z.ltb_lt v 253) Hv). Qed.

Lemma length_WriteVarInt_cases (v : Z) :
  length (WriteVarInt v)
  = if v <? 253 then 1%nat else if v <=? 65535 then 3%nat
    else if v <=? 4294967295 then 5%nat else 9%nat.
Proof.
  unfold WriteVarInt.
  destruct (v <? 253); [reflexivity|]. destruct (v <=? 65535); [reflexivity|].
  destruct (v <=? 4294967295); reflexivity.
Qed.

(** X14.  The size of a framed entry is 18 bytes, plus 32 when the payment
    hash is not zero, plus the size of the amount: 1, 3 or 5 bytes for an
    amount of at most 252, 65535 or 4294967295.  So an entry takes 19, 21 or
    23 bytes with a zero hash and 51, 53 or 55 bytes otherwise, and a zero
    hash saves exactly 32 bytes. *)
Theorem X14_entry_size (h : HTLCEntry) :
  wf_HTLCEntry h = true ->
  length (writeTlvStream toTlvStream h)
  = (18 + (if bytes_Equal (RHash h) ZeroHash then 0 else 32)
     + length (WriteVarInt (Amt h)))%nat
  /\ (Amt h <= 252 -> length (WriteVarInt (Amt h)) = 1%nat)
  /\ (252 < Amt h <= 65535 -> length (WriteVarInt (Amt h)) = 3%nat)
  /\ (65535 < Amt h <= 4294967295 -> length (WriteVarInt (Amt h)) = 5%nat).
Proof.
  intros Hwf. apply wf_HTLCEntry_spec in Hwf as (Hh & Ht & Hi & Ha).
  split.
  - pose proof (length_WriteVarInt (Amt h)) as Hv.
    assert (Hbody : length (Encode toTlvStream h)
                    = (17 + (if bytes_Equal (RHash h) ZeroHash then 0 else 32)
                       + length (WriteVarInt (Amt h)))%nat).
    { unfold Encode, toTlvStream, encodeRecord.
      cbv [map concat typ sizeFunc encoder SparsePayHash_Record MakeUint32Record
           MakeUint16Record MakeBoolRecord MakeBigSizeRecord MakeStaticRecord
           MakeDynamicRecord load pRHash pRefundTimeout pOutputIndex pIncoming
           pAmt].
      rewrite (WriteVarInt_small (Z.of_nat (length (WriteVarInt (Amt h)))))
        by lia.
      unfold hashLen, sparseHashEncoder, EBytes32, EUint32, EUint16, EBool.
      destruct (bytes_Equal (RHash h) ZeroHash);
        rewrite !length_app; cbn [length WriteVarInt Z.ltb Z.compare Pos.compare
                                  Pos.compare_cont app];
        rewrite ?length_app, ?length_be_bytes, ?Hh; cbn [length]; lia. }
    unfold writeTlvStream. rewrite length_app, Hbody.
    rewrite WriteVarInt_small
      by (destruct (bytes_Equal (RHash h) ZeroHash); lia).
    cbn [length]. lia.
  - rewrite length_WriteVarInt_cases. repeat split; intros Hr.
    + now rewrite (proj2 (Z.ltb_lt (Amt h) 253)) by lia.
    + rewrite (proj2 (Z.ltb_ge (Amt h) 253)) by lia.
      now rewrite (proj2 (Z.leb_le (Amt h) 65535)) by lia.
    + rewrite (proj2 (Z.ltb_ge (Amt h) 253)) by lia.
      rewrite (proj2 (Z.leb_gt (Amt h) 65535)) by lia.
      now rewrite (proj2 (Z.leb_le (Amt h) 4294967295)) by lia.
Qed.

Lemma X14_entry_size_witness :
  length (writeTlvStream toTlvStream ex_entry)
  = (18 + 32 + length (WriteVarInt 70000))%nat.
Proof.
  apply (proj1 (X14_entry_size ex_entry eq_refl)).
Defined.

(** ** Appending entries, and distinct logs *)

Lemma serializeHTLCEntries_app (a b : list HTLCEntry) :
  serializeHTLCEntries (a ++ b) = serializeHTLCEntries a ++ serializeHTLCEntries b.
Proof. unfold serializeHTLCEntries. now rewrite map_app, concat_app. Qed.

Lemma serializeRevocationLog_append (l : RevocationLog) (hs : list HTLCEntry) :
  serializeRevocationLog (withHTLCEntries (HTLCEntries l ++ hs) l)
  = serializeRevocationLog l ++ serializeHTLCEntries hs.
Proof.
  rewrite !serializeRevocationLog_eq, <- app_assoc.
  rewrite <- serializeHTLCEntries_app.
  destruct l as [o t c es [ob|] [tb|]]; reflexivity.
Qed.

(** X15.  The list of entries has no count and no end mark: the bytes of a
    log followed by the bytes of further entries are the bytes of the log
    with these entries appended, and are read back as that log. *)
Theorem X15_append_entries (l : RevocationLog) (hs : list HTLCEntry) :
  wf_RevocationLog l = true ->
  forallb wf_HTLCEntry hs = true ->
  serializeRevocationLog l ++ serializeHTLCEntries hs
  = serializeRevocationLog (withHTLCEntries (HTLCEntries l ++ hs) l)
  /\ deserializeRevocationLog
       (serializeRevocationLog l ++ serializeHTLCEntries hs)
     = Ok (withHTLCEntries (HTLCEntries l ++ hs) l).
Proof.
  intros Hl Hhs. rewrite <- serializeRevocationLog_append.
  split; [reflexivity|]. apply deserialize_serialize.
  unfold wf_RevocationLog in *. destruct l as [o t c es ob tb].
  cbn [withHTLCEntries OurOutputIndex TheirOutputIndex CommitTxHash HTLCEntries
       OurBalance TheirBalance] in *.
  rewrite !andb_true_iff in *. rewrite forallb_app, andb_true_iff. tauto.
Qed.

Lemma X15_append_entries_witness :
  deserializeRevocationLog
    (serializeRevocationLog ex_log ++ serializeHTLCEntries [ex_entry])
  = Ok (withHTLCEntries (HTLCEntries ex_log ++ [ex_entry]) ex_log).
Proof.
  apply (proj2 (X15_append_entries ex_log [ex_entry] eq_refl eq_refl)).
Defined.

(** X16.  Two well-formed logs that differ are written as different bytes. *)
Theorem X16_serialize_injective (l1 l2 : RevocationLog) :
  wf_RevocationLog l1 = true ->
  wf_RevocationLog l2 = true ->
  serializeRevocationLog l1 = serializeRevocationLog l2 ->
  l1 = l2.
Proof.
  intros H1 H2 Heq.
  pose proof (deserialize_serialize l1 H1) as D1.
  rewrite Heq, (deserialize_serialize l2 H2) in D1. now injection D1.
Qed.

Lemma X16_serialize_injective_witness :
  serializeRevocationLog ex_log
  <> serializeRevocationLog (withOurBalance None ex_log).
Proof.
  intros Heq.
  pose proof (X16_serialize_injective ex_log (withOurBalance None ex_log)
                eq_refl eq_refl Heq) as H.
  discriminate H.
Defined.

(** ** The configuration of the sweeper *)

Section SweeperProperties.
Context {BudgetConfig : Type} (BudgetValidate : BudgetConfig -> option string).

(** X17.  [Validate] accepts a configuration exactly when the batch window
    is not negative (zero is accepted), the maximum fee rate is between 100
    and 10000, the confirmation target is at least 144 and the budget is
    valid; and the budget is not looked at when one of the first four checks
    fails. *)
Theorem X17_sweeper_validate (s : Sweeper BudgetConfig) (b : BudgetConfig) :
  (Validate BudgetValidate s = None
   <-> 0 <= BatchWindowDuration s
       /\ MaxFeeRateFloor <= MaxFeeRate s <= MaxAllowedFeeRate
       /\ 144 <= NoDeadlineConfTarget s
       /\ BudgetValidate (Budget s) = None)
  /\ (~ (0 <= BatchWindowDuration s
         /\ MaxFeeRateFloor <= MaxFeeRate s <= MaxAllowedFeeRate
         /\ 144 <= NoDeadlineConfTarget s) ->
      Validate BudgetValidate
        (MakeSweeper (BatchWindowDuration s) (MaxFeeRate s)
           (NoDeadlineConfTarget s) b)
      = Validate BudgetValidate s
      /\ Validate BudgetValidate s <> None).
Proof.
  unfold Validate, MaxFeeRateFloor, MaxAllowedFeeRate.
  cbn [BatchWindowDuration MaxFeeRate NoDeadlineConfTarget Budget].
  rewrite Z.gtb_ltb.
  destruct (Z.ltb_spec (BatchWindowDuration s) 0);
    [split; [split; [discriminate | lia] | now split]|].
  destruct (Z.ltb_spec (MaxFeeRate s) 100);
    [split; [split; [discriminate | lia] | now split]|].
  destruct (Z.ltb_spec 10000 (MaxFeeRate s));
    [split; [split; [discriminate | lia] | now split]|].
  destruct (Z.ltb_spec (NoDeadlineConfTarget s) 144);
    [split; [split; [discriminate | lia] | now split]|].
  split; [|intros Hn; exfalso; apply Hn; lia].
  destruct (BudgetValidate (Budget s)); split;
    [discriminate | intros (_ & _ & _ & ?); discriminate
    | intros _; repeat split; auto; lia | reflexivity].
Qed.
End SweeperProperties.

Lemma X17_sweeper_validate_witness :
  Validate ex_BudgetValidate ex_sweeper = None
  /\ Validate ex_BudgetValidate (MakeSweeper (-1) 100 144 (-5))
     = Validate ex_BudgetValidate (MakeSweeper (-1) 100 144 0).
Proof.
  split.
  - apply (proj1 (X17_sweeper_validate ex_BudgetValidate ex_sweeper 0)).
    repeat split; unfold MaxFeeRateFloor, MaxAllowedFeeRate; simpl; lia.
  - apply (proj2 (X17_sweeper_validate ex_BudgetValidate
                    (MakeSweeper (-1) 100 144 0) (-5))).
    simpl. lia.
Defined.
